(** * termtosvg.anim: rendering of terminal recordings as animated SVG

    A shallow embedding of [src/termtosvg/anim.py] and the properties of
    its colour resolver, run grouping, shape builders, definition store,
    animation composer and template scaler.

    Conventions of the embedding
    - Python [int] is [Z]; Python [str] is [string], read as a sequence of
      code points below 256 (so that U+00A0 is the single character 160 and
      [len] is [String.length]).
    - [dict]s whose iteration order is observable (element attributes, the
      per-bucket [new_definitions]) are association lists in insertion
      order; the others (palette, screen line, [definitions]) are [gmap]s.
    - An lxml element is a tree value; an element inside a document is
      named by its path of child indices from the root, and in-place
      mutation is an update of the document at that path.
    - Exceptions are the [Raise] results of the [result] monad. *)

From Stdlib Require Import ZArith String Ascii List DecimalString DecimalZ.
From stdpp Require Import base option list gmap strings sorting.

Local Open Scope Z_scope.

(* ================================================================== *)
(** * Exceptions *)

Inductive Exception :=
| TemplateError
| ValueError
| KeyError
| TypeError
| AttributeError
| AssertionError
| StopIteration.

Inductive result (A : Type) :=
| Ok (a : A)
| Raise (e : Exception).
Arguments Ok {A} a.
Arguments Raise {A} e.

#[global] Instance result_ret : MRet result := λ A a, Ok a.
#[global] Instance result_bind : MBind result := λ A B f r,
  match r with Ok a => f a | Raise e => Raise e end.
#[global] Instance result_fmap : FMap result := λ A B f r,
  match r with Ok a => Ok (f a) | Raise e => Raise e end.

Definition is_Ok {A} (r : result A) : Prop := ∃ a, r = Ok a.

(** [d[k]] on a dictionary lookup that may fail with [KeyError]. *)
Definition getitem {A} (o : option A) : result A :=
  match o with Some a => Ok a | None => Raise KeyError end.

(** Run a fallible step on every element, left to right, stopping at the
    first exception. *)
Fixpoint traverse {A B} (f : A → result B) (l : list A) : result (list B) :=
  match l with
  | [] => Ok []
  | x :: l' => y ← f x; ys ← traverse f l'; Ok (y :: ys)
  end.

(* ================================================================== *)
(** * Python strings and integers *)

(** [str(n)] and ['{}'.format(n)] for an [int]. *)
Definition py_str (z : Z) : string := NilZero.string_of_int (Z.to_int z).

(** ['{}'.format(x)] for a value that is an [int] or [None]. *)
Definition py_format_opt (o : option Z) : string :=
  match o with Some z => py_str z | None => "None" end.

(** [str.isspace] on one character (code points below 256). *)
Definition isspace (c : ascii) : bool :=
  bool_decide (nat_of_ascii c ∈ [9; 10; 11; 12; 13; 28; 29; 30; 31; 32; 133; 160]%nat).

Fixpoint lstrip (s : string) : string :=
  match s with
  | String c r => if isspace c then lstrip r else s
  | EmptyString => EmptyString
  end.

Fixpoint rstrip (s : string) : string :=
  match s with
  | String c r =>
      match rstrip r with
      | EmptyString => if isspace c then EmptyString else String c EmptyString
      | r' => String c r'
      end
  | EmptyString => EmptyString
  end.

(** [s.strip()] *)
Definition strip (s : string) : string := rstrip (lstrip s).

(** [s.replace(a, b)] for single characters [a], [b]. *)
Fixpoint replace_char (a b : ascii) (s : string) : string :=
  match s with
  | String c r => String (if Ascii.eqb c a then b else c) (replace_char a b r)
  | EmptyString => EmptyString
  end.

(** [s.split()]: the maximal runs of characters that are not white space.
    [cur] is the run being read, most recent character last. *)
Fixpoint split_ws_aux (cur : string) (s : string) : list string :=
  match s with
  | String c r =>
      if isspace c
      then match cur with
           | EmptyString => split_ws_aux EmptyString r
           | _ => cur :: split_ws_aux EmptyString r
           end
      else split_ws_aux (cur +:+ String c EmptyString) r
  | EmptyString =>
      match cur with EmptyString => [] | _ => [cur] end
  end.

Definition split_ws (s : string) : list string := split_ws_aux EmptyString s.

(** [sep.join(l)] *)
Fixpoint join (sep : string) (l : list string) : string :=
  match l with
  | [] => EmptyString
  | [x] => x
  | x :: l' => x +:+ sep +:+ join sep l'
  end.

(** [s.startswith(p)] *)
Definition startswith (p s : string) : bool := String.prefix p s.

(** Underscores of an integer literal: single, and between two digits.
    [prev] tells whether the previous character was a digit. *)
Fixpoint drop_underscores (prev : bool) (s : string) : option string :=
  match s with
  | String c r =>
      if Ascii.eqb c "_"
      then if prev then drop_underscores false r else None
      else String c <$> drop_underscores true r
  | EmptyString => if prev then Some EmptyString else None
  end.

(** The value of an unsigned decimal literal. *)
Definition py_int_magnitude (t : string) : option Z :=
  d ← drop_underscores false t;
  Z.of_uint <$> NilEmpty.uint_of_string d.

(** [int(s)]: optional surrounding white space, optional sign, decimal digits
    with optional single underscores between them. [None] is [ValueError]. *)
Definition py_int (s : string) : option Z :=
  match strip s with
  | String c t =>
      if Ascii.eqb c "+" then py_int_magnitude t
      else if Ascii.eqb c "-" then Z.opp <$> py_int_magnitude t
      else py_int_magnitude (String c t)
  | EmptyString => None
  end.

Definition is_hexdigit (c : ascii) : bool :=
  let n := nat_of_ascii c in
  bool_decide ((48 ≤ n ≤ 57) ∨ (65 ≤ n ≤ 70) ∨ (97 ≤ n ≤ 102))%nat.

Fixpoint all_chars (P : ascii → bool) (s : string) : bool :=
  match s with
  | String c r => P c && all_chars P r
  | EmptyString => true
  end.

(** Whether [int(s, 16)] returns (it raises [ValueError] otherwise): as
    [py_int], with hexadecimal digits and an optional [0x] or [0X] prefix,
    which an underscore may follow. *)
Definition py_int16_ok (s : string) : bool :=
  let digits (prev : bool) (t : string) : bool :=
    match drop_underscores prev t with
    | Some (String c r) => all_chars is_hexdigit (String c r)
    | _ => false
    end in
  let unsigned (t : string) : bool :=
    match t with
    | String c0 (String c1 r) =>
        if Ascii.eqb c0 "0" && (Ascii.eqb c1 "x" || Ascii.eqb c1 "X")
        then (* the prefix counts as a digit for a following underscore *)
          digits true r || digits false t
        else digits false t
    | _ => digits false t
    end in
  match strip s with
  | String c t =>
      if Ascii.eqb c "+" || Ascii.eqb c "-" then unsigned t else unsigned (String c t)
  | EmptyString => false
  end.

(* ================================================================== *)
(** * Colour resolver: [CharacterCell.from_pyte] *)

Definition _COLORS : list string :=
  ["black"; "red"; "green"; "brown"; "blue"; "magenta"; "cyan"; "white"].
Definition _BRIGHTCOLORS : list string := (λ color, "bright" +:+ color) <$> _COLORS.
Definition ALL_COLORS : list string := _COLORS ++ _BRIGHTCOLORS.

(** Id of the very last animation of the document. *)
Definition LAST_ANIMATION_ID : string := "anim_last".

Definition SVG_NS : string := "http://www.w3.org/2000/svg".
Definition XLINK_NS : string := "http://www.w3.org/1999/xlink".
Definition TERMTOSVG_NS : string := "https://github.com/nbedos/termtosvg".

(** The fields of [pyte.screens.Char] that the renderer reads. *)
Record Char := mkChar {
  data : string;
  fg : string;
  bg : string;
  char_bold : bool;
  reverse : bool
}.

Record CharacterCell := mkCharacterCell {
  text : string;
  color : string;
  background_color : string;
  bold : bool
}.

#[global] Instance CharacterCell_eq_dec : EqDecision CharacterCell.
Proof. solve_decision. Defined.

(** Keys of a palette: colour numbers and the two names. *)
Inductive PKey :=
| KInt (n : Z)
| KStr (s : string).

#[global] Instance PKey_eq_dec : EqDecision PKey.
Proof. solve_decision. Defined.

#[global] Instance PKey_countable : Countable PKey.
Proof.
  refine (inj_countable'
            (λ k, match k with KInt n => inl n | KStr s => inr s end)
            (λ x, match x with inl n => KInt n | inr s => KStr s end) _).
  by intros [].
Defined.

(** [dict(zip(names, range(len(names))))], read at [name]. [zip] keeps the
    first sixteen names apart, so the number is the position. *)
Fixpoint index_of (name : string) (names : list string) (i : Z) : option Z :=
  match names with
  | [] => None
  | n :: names' => if decide (n = name) then Some i else index_of name names' (i + 1)
  end.

Definition color_numbers (name : string) : option Z := index_of name ALL_COLORS 0.

(** The hexadecimal branch shared by both descriptors: [int(c, 16)] may
    raise [ValueError], then ['#{}'.format(c)]. *)
Definition hex_color (c : string) : result string :=
  if py_int16_ok c then Ok ("#" +:+ c) else Raise ValueError.

Definition resolve_text_color (char : Char) (palette : gmap PKey string) : result string :=
  if decide (fg char = "default") then getitem (palette !! KStr "foreground")
  else
    let search_color :=
      if char_bold char && negb (startswith "bright" (fg char))
      then "bright" +:+ fg char
      else fg char in
    match color_numbers search_color with
    | Some n =>
        (* named colours *)
        let color_number :=
          if decide (is_Some (palette !! KInt n)) then n else n `mod` 8 in
        getitem (palette !! KInt color_number)
    | None =>
        if decide (String.length (fg char) = 6%nat) then hex_color (fg char)
        else Raise ValueError
    end.

Definition resolve_background_color (char : Char) (palette : gmap PKey string) : result string :=
  if decide (bg char = "default") then getitem (palette !! KStr "background")
  else
    match color_numbers (bg char) with
    | Some n => getitem (palette !! KInt n)
    | None =>
        if decide (String.length (bg char) = 6%nat) then hex_color (bg char)
        else Raise ValueError
    end.

Definition from_pyte (char : Char) (palette : gmap PKey string) : result CharacterCell :=
  text_color ← resolve_text_color char palette;
  background_color ← resolve_background_color char palette;
  let '(text_color, background_color) :=
    if reverse char then (background_color, text_color)
    else (text_color, background_color) in
  Ok (mkCharacterCell (data char) text_color background_color (char_bold char)).

Record CharacterCellConfig := mkCharacterCellConfig {
  cfg_width : Z;
  cfg_height : Z;
  cfg_text_color : string;
  cfg_background_color : string
}.

Record CharacterCellLineEvent := mkCharacterCellLineEvent {
  row : Z;
  line : gmap Z CharacterCell;
  time : Z;
  duration : Z
}.

(** [CharacterCellRecord = Union[CharacterCellConfig, CharacterCellLineEvent]] *)
Inductive CharacterCellRecord :=
| Config (c : CharacterCellConfig)
| LineEvent (e : CharacterCellLineEvent).

(* ================================================================== *)
(** * Run-length grouping: [ConsecutiveWithSameAttributes] and [groupby] *)

(** The state of a [ConsecutiveWithSameAttributes] object; [self.attributes]
    is the function [attributes] reading the key attributes of an object. *)
Record ConsecutiveWithSameAttributes (K : Type) := mkConsecutive {
  group_index : option Z;
  last_index : option Z;
  last_key_attributes : option K
}.
Arguments mkConsecutive {K} _ _ _.
Arguments group_index {K} _.
Arguments last_index {K} _.
Arguments last_key_attributes {K} _.

(** [__init__] *)
Definition consecutive_init {K} : ConsecutiveWithSameAttributes K :=
  mkConsecutive None None None.

(** [__call__]: the new state and the returned key. *)
Definition consecutive_call {A K} `{EqDecision K} (attributes : A → K)
    (self : ConsecutiveWithSameAttributes K) (arg : Z * A)
  : ConsecutiveWithSameAttributes K * (option Z * K) :=
  let '(index, obj) := arg in
  let key_attributes := attributes obj in
  let group_index' :=
    if decide (last_index self ≠ Some (index - 1)
               ∨ last_key_attributes self ≠ Some key_attributes)
    then Some index
    else group_index self in
  (mkConsecutive group_index' (Some index) (Some key_attributes),
   (group_index', key_attributes)).

(** The keys [itertools.groupby] gets from a stateful key callable: it is
    called once on every element, in order. *)
Fixpoint keyed {S X Ky} (key : S → X → S * Ky) (st : S) (l : list X) : list (Ky * X) :=
  match l with
  | [] => []
  | x :: l' => let '(st', k) := key st x in (k, x) :: keyed key st' l'
  end.

(** [itertools.groupby] on elements paired with their keys: the maximal
    blocks of adjacent elements with equal keys, each with its key. *)
Fixpoint group_keyed {X Ky} `{EqDecision Ky} (l : list (Ky * X)) : list (Ky * list X) :=
  match l with
  | [] => []
  | (k, x) :: l' =>
      match group_keyed l' with
      | (k', g) :: rest =>
          if decide (k = k') then (k, x :: g) :: rest
          else (k, [x]) :: (k', g) :: rest
      | [] => [(k, [x])]
      end
  end.

(** [groupby(l, ConsecutiveWithSameAttributes(attributes))] *)
Definition groupby_consecutive {A K} `{EqDecision K} (attributes : A → K)
    (l : list (Z * A)) : list ((option Z * K) * list (Z * A)) :=
  group_keyed (keyed (consecutive_call attributes) consecutive_init l).

(** [groupby(l, key)] for a key that is a pure function. *)
Definition groupby {X Ky} `{EqDecision Ky} (key : X → Ky) (l : list X) : list (Ky * list X) :=
  group_keyed ((λ x, (key x, x)) <$> l).

(** [sorted(d.items())] for a dictionary with integer keys: the keys are
    distinct, so the items are ordered by key alone. *)
Definition item_le {A} (a b : Z * A) : Prop := a.1 ≤ b.1.
#[global] Instance item_le_dec {A} (a b : Z * A) : Decision (item_le a b).
Proof. unfold item_le. apply _. Defined.

Definition sorted_items {A} (d : gmap Z A) : list (Z * A) :=
  merge_sort item_le (map_to_list d).

(* ================================================================== *)
(** * The element tree *)

Inductive Text :=
| NoText
| PlainText (s : string)
| CDATA (s : string).

#[local] Unset Elimination Schemes.
Inductive Element : Type := mkElement {
  tag : string;
  attrib : list (string * string);
  elem_text : Text;
  children : list Element
}.
#[local] Set Elimination Schemes.

(** [d[k] = v] on an insertion-ordered dictionary: an existing key keeps its
    place, a new one goes last. *)
Fixpoint dict_set {V} (k : string) (v : V) (d : list (string * V)) : list (string * V) :=
  match d with
  | [] => [(k, v)]
  | (k', v') :: d' => if decide (k' = k) then (k, v) :: d' else (k', v') :: dict_set k v d'
  end.

(** [d.get(k)] *)
Fixpoint dict_get {V} (k : string) (d : list (string * V)) : option V :=
  match d with
  | [] => None
  | (k', v') :: d' => if decide (k' = k) then Some v' else dict_get k d'
  end.

Definition set_attrib (k v : string) (e : Element) : Element :=
  mkElement (tag e) (dict_set k v (attrib e)) (elem_text e) (children e).
Definition set_text (t : Text) (e : Element) : Element :=
  mkElement (tag e) (attrib e) t (children e).
Definition set_children (cs : list Element) (e : Element) : Element :=
  mkElement (tag e) (attrib e) (elem_text e) cs.
(** [e.append(c)] for a child that has no parent yet. *)
Definition append (c : Element) (e : Element) : Element :=
  set_children (children e ++ [c]) e.

(** What the renderer takes from its platform: lxml's serializer
    [etree.tostring], [os.linesep], and the packaged template resources,
    [parse_template name] being the root that [etree.parse] returns for
    [pkgutil.get_data(__name__, name)], or [None] when it raises
    [etree.Error]. *)
Class Platform := {
  tostring : Element → string;
  linesep : string;
  parse_template : string → option Element
}.

(* ================================================================== *)
(** * Shape builders *)

Definition make_rect_tag (column length height cell_width cell_height : Z)
    (background_color : string) : Element :=
  let attributes := [
    ("x", py_str (column * cell_width));
    ("y", py_str height);
    ("width", py_str (length * cell_width));
    ("height", py_str cell_height);
    ("fill", background_color)
  ] in
  mkElement "rect" attributes NoText [].

(** [None * cell_width] raises [TypeError]. *)
Definition int_operand (column : option Z) : result Z :=
  match column with Some c => Ok c | None => Raise TypeError end.

(** The comprehension of [_render_line_bg_colors] over the groups of
    [non_default_bg_cells]. *)
Definition rect_tags (non_default_bg_cells : list (Z * CharacterCell))
    (height cell_height cell_width : Z) : result (list Element) :=
  traverse (λ '((column, attributes), group),
          column ← int_operand column;
          Ok (make_rect_tag column (Z.of_nat (length group)) height cell_width
                cell_height attributes))
       (groupby_consecutive background_color non_default_bg_cells).

Definition _render_line_bg_colors (screen_line : gmap Z CharacterCell)
    (height cell_height cell_width : Z) (default_bg_color : string)
  : result (list Element) :=
  let non_default_bg_cells :=
    filter (λ '(column, cell), background_color cell ≠ default_bg_color)
           (sorted_items screen_line) in
  rect_tags non_default_bg_cells height cell_height cell_width.

(** U+00A0, no-break space. *)
Definition nbsp : ascii := ascii_of_nat 160.

Definition make_text_tag (column : Z) (attributes : string * bool) (text : string)
    (cell_width : Z) : Element :=
  let text_tag_attributes := [
    ("x", py_str (column * cell_width));
    ("textLength", py_str (Z.of_nat (String.length text) * cell_width));
    ("lengthAdjust", "spacingAndGlyphs");
    ("fill", attributes.1)
  ] in
  let text_tag_attributes :=
    if attributes.2 then dict_set "font-weight" "bold" text_tag_attributes
    else text_tag_attributes in
  mkElement "text" text_tag_attributes (PlainText (replace_char " " nbsp text)) [].

(** [''.join(l)] *)
Definition concat_strings (l : list string) : string := foldr String.append EmptyString l.

(** The key attributes [['color', 'bold']] of a cell. *)
Definition text_attributes (c : CharacterCell) : string * bool := (color c, bold c).

(** [''.join(c.text for _, c in group)] *)
Definition group_text (group : list (Z * CharacterCell)) : string :=
  concat_strings ((λ '(_, c), text c) <$> group).

(** The comprehension of [_render_characters] over the groups of [line]. *)
Definition text_tags (line : list (Z * CharacterCell)) (cell_width : Z)
  : result (list Element) :=
  traverse (λ '((column, attributes), group),
          column ← int_operand column;
          Ok (make_text_tag column attributes (group_text group) cell_width))
       (groupby_consecutive text_attributes line).

Definition _render_characters (screen_line : gmap Z CharacterCell) (cell_width : Z)
  : result (list Element) :=
  let line := sorted_items screen_line in
  text_tags line cell_width.

(* ================================================================== *)
(** * Style sheet *)

Definition dquote : string := String (ascii_of_nat 34) EmptyString.

Definition serialize_css_item (item : list (string * string)) : string :=
  join "; " ((λ '(prop, value), prop +:+ ": " +:+ value) <$> item).

Definition _serialize_css_dict `{Platform} (css : list (string * list (string * string)))
  : string :=
  join linesep ((λ '(item, props), item +:+ " {" +:+ serialize_css_item props +:+ "}") <$> css).

Definition build_style_tag `{Platform} (font : string) (font_size : Z)
    (background_color : string) : Element :=
  let css := [
    ("*", [("font-family", dquote +:+ font +:+ dquote +:+ ", monospace");
           ("font-style", "normal");
           ("font-size", py_str font_size +:+ "px")]);
    ("text", [("dominant-baseline", "text-before-edge")]);
    (".background", [("fill", background_color)])
  ] in
  let style_attributes := [("type", "text/css")] in
  mkElement "style" style_attributes (CDATA (_serialize_css_dict css)) [].

Definition _BG_RECT_TAG_ATTRIBUTES : list (string * string) :=
  [("class", "background"); ("height", "100%"); ("width", "100%"); ("x", "0"); ("y", "0")].
Definition BG_RECT_TAG : Element := mkElement "rect" _BG_RECT_TAG_ATTRIBUTES NoText [].

(* ================================================================== *)
(** * Animation composer: [make_animated_group] *)

(** Fold with a step that may raise. *)
Fixpoint foldlM {A B} (f : B → A → result B) (b : B) (l : list A) : result B :=
  match l with
  | [] => Ok b
  | x :: l' => b' ← f b x; foldlM f b' l'
  end.

(** The ['begin'] attribute of the [animate] tag of a group shown at [time]. *)
Definition begin_time (time : Z) : string :=
  if decide (time = 0)
  then "0ms; " +:+ LAST_ANIMATION_ID +:+ ".end"
  else py_str time +:+ "ms; " +:+ LAST_ANIMATION_ID +:+ ".end+" +:+ py_str time +:+ "ms".

Definition make_animate_tag (time duration : Z) : Element :=
  let attributes := [
    ("attributeName", "display");
    ("from", "inline");
    ("to", "inline");
    ("begin", begin_time time);
    ("dur", py_str duration +:+ "ms");
    ("fill", "remove")
  ] in
  mkElement "animate" attributes NoText [].

Definition make_use_tag (group_id : string) (y : Z) : Element :=
  let use_attributes := [
    ("{" +:+ XLINK_NS +:+ "}href", "#" +:+ group_id);
    ("y", py_str y)
  ] in
  mkElement "use" use_attributes NoText [].

(** "Find or create a definition for text_group_tag": the id for the
    serialized group [text_group_tag_str], and [new_definitions] afterwards.
    The [assert] of the source compares the id, a string, with elements, and
    cannot fail. *)
Definition find_or_create_definition (defs : gmap string Element)
    (new_definitions : list (string * Element))
    (text_group_tag_str : string) (text_group_tag : Element)
  : result (string * list (string * Element)) :=
  match defs !! text_group_tag_str with
  | Some d =>
      group_id ← getitem (dict_get "id" (attrib d));
      Ok (group_id, new_definitions)
  | None =>
      match dict_get text_group_tag_str new_definitions with
      | Some d =>
          group_id ← getitem (dict_get "id" (attrib d));
          Ok (group_id, new_definitions)
      | None =>
          let group_id :=
            "g" +:+ py_str (Z.of_nat (size defs) + Z.of_nat (length new_definitions) + 1) in
          let text_group_tag := set_attrib "id" group_id text_group_tag in
          Ok (group_id, dict_set text_group_tag_str text_group_tag new_definitions)
      end
  end.

(** One iteration of the loop over the records of a bucket: the children
    appended to the group, and [new_definitions] afterwards. *)
Definition render_event `{Platform} (cell_height cell_width : Z) (default_bg_color : string)
    (defs : gmap string Element)
    (acc : list Element * list (string * Element)) (event_record : CharacterCellLineEvent)
  : result (list Element * list (string * Element)) :=
  let '(group_children, new_definitions) := acc in
  (* background elements *)
  rect_tags ← _render_line_bg_colors (line event_record) (row event_record * cell_height)
                 cell_height cell_width default_bg_color;
  (* text elements of the line *)
  text_tags ← _render_characters (line event_record) cell_width;
  let text_group_tag := mkElement "g" [] NoText text_tags in
  let text_group_tag_str := tostring text_group_tag in
  '(group_id, new_definitions) ←
     find_or_create_definition defs new_definitions text_group_tag_str text_group_tag;
  let use_tag := make_use_tag group_id (row event_record * cell_height) in
  Ok (group_children ++ rect_tags ++ [use_tag], new_definitions).

Definition make_animated_group `{Platform} (records : list CharacterCellLineEvent)
    (time duration cell_height cell_width : Z) (default_bg_color : string)
    (defs : gmap string Element)
  : result (Element * list (string * Element)) :=
  '(group_children, new_definitions) ←
     foldlM (render_event cell_height cell_width default_bg_color defs) ([], []) records;
  let animation := make_animate_tag time duration in
  let animation_group_tag :=
    mkElement "g" [("display", "none")] NoText (group_children ++ [animation]) in
  Ok (animation_group_tag, new_definitions).

(* ================================================================== *)
(** * Documents: paths, search and in-place mutation *)

(** An element of a document, as the child indices from the root to it. *)
Definition path := list nat.

Fixpoint get (p : path) (e : Element) : option Element :=
  match p with
  | [] => Some e
  | i :: p' => c ← children e !! i; get p' c
  end.

(** Mutation of the element at [p]. *)
Fixpoint update (p : path) (f : Element → Element) (e : Element) : Element :=
  match p with
  | [] => f e
  | i :: p' => set_children (alter (update p' f) i (children e)) e
  end.

(** [e.getparent().remove(e)] for the element [e] at [p]; the root has no
    parent, and [None.remove] raises [AttributeError]. *)
Fixpoint remove (p : path) (e : Element) : result Element :=
  match p with
  | [] => Raise AttributeError
  | [i] => Ok (set_children (delete i (children e)) e)
  | i :: p' =>
      match children e !! i with
      | Some c => c' ← remove p' c; Ok (set_children (<[i := c']> (children e)) e)
      | None => Ok e
      end
  end.

(** The children of [e], each with its path from [e]. *)
Definition iterchildren (e : Element) : list (path * Element) :=
  imap (λ i c, ([i], c)) (children e).

(** [e.iterdescendants()]: every element below [e] in document order, each
    with its path from [e]. *)
Fixpoint iterdescendants (e : Element) : list (path * Element) :=
  (fix below (i : nat) (cs : list Element) : list (path * Element) :=
     match cs with
     | [] => []
     | c :: cs' =>
         ([i], c) :: (prod_map (cons i) id <$> iterdescendants c) ++ below (S i) cs'
     end) 0%nat (children e).

Definition has_tag (t : string) (e : Element) : bool := bool_decide (tag e = t).
(** The predicate [[@name]] *)
Definition has_attrib (name : string) (e : Element) : bool :=
  bool_decide (is_Some (dict_get name (attrib e))).
(** The predicate [[@name="value"]] *)
Definition attrib_is (name value : string) (e : Element) : bool :=
  bool_decide (dict_get name (attrib e) = Some value).

Definition qname (ns name : string) : string := "{" +:+ ns +:+ "}" +:+ name.

(** [e.findall('t[...]')]: the children with tag [t] that satisfy [P]. *)
Definition findall_children (t : string) (P : Element → bool) (e : Element)
  : list (path * Element) :=
  filter (λ pe, has_tag t pe.2 && P pe.2) (iterchildren e).

(** [e.findall('.//t[...]')] *)
Definition findall_descendants (t : string) (P : Element → bool) (e : Element)
  : list (path * Element) :=
  filter (λ pe, has_tag t pe.2 && P pe.2) (iterdescendants e).

(** [e.findall('.//t1/t2[...]')] *)
Definition findall_descendants_child (t1 t2 : string) (P : Element → bool) (e : Element)
  : list (path * Element) :=
  d ← findall_descendants t1 (λ _, true) e;
  prod_map (app d.1) id <$> findall_children t2 P d.2.

(** [root.find('.//{SVG_NS}svg[@id="screen"]')] *)
Definition find_screen (root : Element) : option (path * Element) :=
  head (findall_descendants (qname SVG_NS "svg") (attrib_is "id" "screen") root).

(** [root.find('.//{SVG_NS}defs/{TERMTOSVG_NS}template_settings')] *)
Definition find_settings (root : Element) : option (path * Element) :=
  head (findall_descendants_child (qname SVG_NS "defs")
          (qname TERMTOSVG_NS "template_settings") (λ _, true) root).

(** [settings.find('{TERMTOSVG_NS}screen_geometry[@columns][@rows]')] *)
Definition find_geometry (settings : Element) : option (path * Element) :=
  head (findall_children (qname TERMTOSVG_NS "screen_geometry")
          (λ e, has_attrib "columns" e && has_attrib "rows" e) settings).

(** [root.find('.//{SVG_NS}defs/{SVG_NS}style[@class="generated"]')] *)
Definition find_generated_style (root : Element) : option (path * Element) :=
  head (findall_descendants_child (qname SVG_NS "defs") (qname SVG_NS "style")
          (attrib_is "class" "generated") root).

(* ================================================================== *)
(** * Template scaler: [resize_template] *)

(** [int(s)] inside a [try] that turns [ValueError] into [exc]. *)
Definition int_or (exc : Exception) (s : string) : result Z :=
  match py_int s with Some z => Ok z | None => Raise exc end.

(** The body of the loop of [scale] over the scalable attributes. *)
Definition scale_attribute (element : Element) (attribute : string) (delta : Z)
  : result Element :=
  match dict_get attribute (attrib element) with
  | Some v =>
      n ← int_or TemplateError v;
      Ok (set_attrib attribute (py_str (n + delta)) element)
  | None => Ok element
  end.

(** The inner function [scale] of [resize_template], which closes over
    [cell_width] and [cell_height]. *)
Definition scale (cell_width cell_height : Z) (element : Element)
    (template_columns template_rows columns rows : Z) : result Element :=
  viewbox ← match dict_get "viewBox" (attrib element) with
             | Some v => Ok (split_ws (replace_char "," " " v))
             | None => Raise TemplateError
             end;
  numbers ← traverse (int_or ValueError) viewbox;
  match numbers with
  | [vb_min_x; vb_min_y; vb_width; vb_height] =>
      let vb_width := vb_width + cell_width * (columns - template_columns) in
      let vb_height := vb_height + cell_height * (rows - template_rows) in
      let element :=
        set_attrib "viewBox"
          (join " " (py_str <$> [vb_min_x; vb_min_y; vb_width; vb_height])) element in
      let scalable_attributes := [
        ("width", cell_width * (columns - template_columns));
        ("height", cell_height * (rows - template_rows))
      ] in
      foldlM (λ element '(attribute, delta), scale_attribute element attribute delta)
            element scalable_attributes
  | _ => Raise ValueError  (* unpacking a list that has not four values *)
  end.

(** Mutation of the element at [p] by a step that may raise. *)
Definition updateM (p : path) (f : Element → result Element) (root : Element)
  : result Element :=
  match get p root with
  | Some e => e' ← f e; Ok (update p (λ _, e') root)
  | None => Ok root
  end.

(** The first part of [resize_template]: where the [template_settings]
    element is, and the [columns] and [rows] of its [screen_geometry]. *)
Definition template_geometry (root : Element) : result (path * Z * Z) :=
  '(settings_path, settings) ←
     match find_settings root with Some s => Ok s | None => Raise TemplateError end;
  '(_, geometry) ←
     match find_geometry settings with Some g => Ok g | None => Raise TemplateError end;
  template_columns ←
    match dict_get "columns" (attrib geometry) with
    | Some v => int_or TemplateError v
    | None => Raise TemplateError
    end;
  template_rows ←
    match dict_get "rows" (attrib geometry) with
    | Some v => int_or TemplateError v
    | None => Raise TemplateError
    end;
  Ok (settings_path, template_columns, template_rows).

Definition resize_template `{Platform} (template : string)
    (columns rows cell_width cell_height : Z) : result Element :=
  root ← match parse_template template with
          | Some root => Ok root
          | None => Raise TemplateError
          end;
  (* the screen geometry saved in the private data of the template *)
  '(settings_path, template_columns, template_rows) ← template_geometry root;
  if decide (template_rows ≤ 0 ∨ template_columns ≤ 0) then Raise TemplateError
  else
    (* scale the viewBox of the root svg element *)
    root ← scale cell_width cell_height root template_columns template_rows columns rows;
    (* also scale the viewBox of the svg element with id 'screen' *)
    '(screen_path, _) ←
       match find_screen root with Some s => Ok s | None => Raise TemplateError end;
    root ← updateM screen_path
             (λ e, scale cell_width cell_height e template_columns template_rows
                     columns rows) root;
    (* remove the private data *)
    remove settings_path root.

(* ================================================================== *)
(** * The render pass: [_render_animation] and [add_css_variables] *)

Definition add_css_variables `{Platform} (root : Element)
    (foreground_color background_color : string) (animation_duration : option Z)
  : result Element :=
  match find_generated_style root with
  | None => Raise TemplateError
  | Some (style_path, _) =>
      let css := [
        (":root", [("--foreground-color", foreground_color);
                   ("--background-color", background_color);
                   ("--animation-duration", py_format_opt animation_duration +:+ "ms")])
      ] in
      Ok (update style_path (set_text (CDATA (_serialize_css_dict css))) root)
  end.

(** The records that the loop reads before the first one without [time]
    and [duration] (a [CharacterCellConfig], on which [by_time] raises
    [AttributeError]). *)
Fixpoint leading_events (records : list CharacterCellRecord) : list CharacterCellLineEvent :=
  match records with
  | LineEvent e :: records' => e :: leading_events records'
  | _ => []
  end.

Definition by_time (record : CharacterCellLineEvent) : Z * Z :=
  (time record, duration record).

(** [definitions.update(new_defs)] *)
Definition dict_update (definitions : gmap string Element)
    (new_defs : list (string * Element)) : gmap string Element :=
  foldl (λ m kv, <[kv.1 := kv.2]> m) definitions new_defs.

(** The state that the loop over the buckets carries. *)
Record RenderState := mkRenderState {
  definitions : gmap string Element;
  def_children : list Element;       (* children of [def_tag] *)
  animated_groups : list Element;    (* groups appended to [svg_screen_tag] *)
  animation_duration : option Z
}.

(** One iteration of the loop over the buckets. *)
Definition render_bucket `{Platform} (cell_height cell_width : Z) (default_bg_color : string)
    (st : RenderState) (bucket : (Z * Z) * list CharacterCellLineEvent)
  : result RenderState :=
  let '((line_time, line_duration), record_group) := bucket in
  '(animated_group, new_defs) ←
     make_animated_group record_group line_time line_duration cell_height cell_width
       default_bg_color (definitions st);
  Ok (mkRenderState
        (dict_update (definitions st) new_defs)
        (def_children st ++ new_defs.*2)
        (animated_groups st ++ [animated_group])
        (Some (line_time + line_duration))).

(** The loop over the buckets of the line events, from the state in which
    [def_tag] holds the style tag only. *)
Definition render_buckets `{Platform} (cell_height cell_width : Z) (default_bg_color : string)
    (style_tag : Element) (events : list CharacterCellLineEvent) : result RenderState :=
  foldlM (render_bucket cell_height cell_width default_bg_color)
        (mkRenderState ∅ [style_tag] [] None)
        (groupby by_time events).

(** The post-pass on [last_animated_group]: its only [animate] child gets
    the id [LAST_ANIMATION_ID]. *)
Definition tag_last_animation (groups : list Element) : result (list Element) :=
  match last groups with
  | None => Ok groups
  | Some last_animated_group =>
      match findall_children "animate" (λ _, true) last_animated_group with
      | [(animate_path, _)] =>
          Ok (<[pred (length groups) :=
                  update animate_path (set_attrib "id" LAST_ANIMATION_ID) last_animated_group]>
                groups)
      | _ => Raise AssertionError
      end
  end.

Definition _render_animation `{Platform} (records : list CharacterCellRecord)
    (font : string) (font_size cell_width cell_height : Z) : result Element :=
  (* read the header record *)
  '(header, records) ←
     match records with
     | [] => Raise StopIteration
     | Config header :: records => Ok (header, records)
     | LineEvent _ :: _ => Raise AttributeError
     end;
  root ← resize_template "data/templates/carbon.svg" (cfg_width header) (cfg_height header)
           cell_width cell_height;
  '(screen_path, _) ←
     match find_screen root with Some s => Ok s | None => Raise ValueError end;
  let style_tag := build_style_tag font font_size (cfg_background_color header) in
  (* process event records *)
  let events := leading_events records in
  st ← render_buckets cell_height cell_width (cfg_background_color header) style_tag events;
  if decide (length events ≠ length records) then Raise AttributeError
  else
    groups ← tag_last_animation (animated_groups st);
    let def_tag := mkElement "defs" [] NoText (def_children st) in
    let root :=
      update screen_path (set_children ([def_tag; BG_RECT_TAG] ++ groups)) root in
    add_css_variables root (cfg_text_color header) (cfg_background_color header)
      (animation_duration st).

(* ================================================================== *)
(** * A concrete platform for the examples *)

(** A serializer that writes tags, attributes, text and children without
    escaping. *)
Definition serialize_attrib (kv : string * string) : string :=
  " " +:+ kv.1 +:+ "='" +:+ kv.2 +:+ "'".

Fixpoint serialize (e : Element) : string :=
  "<" +:+ tag e +:+ concat_strings (serialize_attrib <$> attrib e) +:+ ">"
  +:+ match elem_text e with NoText => "" | PlainText s | CDATA s => s end
  +:+ (fix go (cs : list Element) : string :=
         match cs with [] => "" | c :: cs' => serialize c +:+ go cs' end) (children e)
  +:+ "</" +:+ tag e +:+ ">".

(** A template in the shape of the packaged ones, for 80 columns and 24
    rows of cells of 8 by 17. *)
Definition example_template : Element :=
  mkElement (qname SVG_NS "svg")
    [("id", "terminal"); ("viewBox", "0 0 640 410"); ("width", "640")] NoText
    [ mkElement (qname SVG_NS "defs") [] NoText
        [ mkElement (qname TERMTOSVG_NS "template_settings") [] NoText
            [ mkElement (qname TERMTOSVG_NS "screen_geometry")
                [("columns", "80"); ("rows", "24")] NoText [] ];
          mkElement (qname SVG_NS "style") [("class", "generated")] NoText [] ];
      mkElement (qname SVG_NS "svg")
        [("id", "screen"); ("width", "640"); ("viewBox", "0 0 640 408")] NoText
        [ mkElement (qname SVG_NS "rect") [] NoText [] ] ].

Definition example_platform : Platform := {|
  tostring := serialize;
  linesep := String (ascii_of_nat 10) EmptyString;
  parse_template := λ _, Some example_template
|}.

(* ================================================================== *)
(** * Notions used to state the properties *)

Definition is_digit (c : ascii) : bool :=
  bool_decide (48 ≤ nat_of_ascii c ≤ 57)%nat.

(** The decimal numeral of a positive number, as [py_str] prints it. *)
Definition pos_numeral (p : positive) : string :=
  NilEmpty.string_of_uint (Pos.to_uint p).


(** The items of a ';'-separated list such as the [begin] attribute of an
    animation, without the white space around them. *)
Fixpoint split_on (sep : ascii) (cur : string) (s : string) : list string :=
  match s with
  | String c r =>
      if Ascii.eqb c sep then cur :: split_on sep EmptyString r
      else split_on sep (cur +:+ String c EmptyString) r
  | EmptyString => [cur]
  end.

Definition begin_triggers (begin : string) : list string :=
  strip <$> split_on ";" EmptyString begin.

(** The cell of [Char] resolved with its two colours exchanged. *)
Definition swap_colors (c : CharacterCell) : CharacterCell :=
  mkCharacterCell (text c) (background_color c) (color c) (bold c).


(** A palette with sixteen colours, and one with eight. *)
Definition palette16 : gmap PKey string :=
  list_to_map
    ([(KStr "foreground", "fg"); (KStr "background", "bg")]
     ++ imap (λ i name, (KInt (Z.of_nat i), "#" +:+ name)) ALL_COLORS).

Definition palette8 : gmap PKey string :=
  list_to_map
    ([(KStr "foreground", "fg"); (KStr "background", "bg")]
     ++ imap (λ i name, (KInt (Z.of_nat i), "#" +:+ name)) _COLORS).

(** Items in strictly increasing order of column. *)
Definition increasing {A} (l : list (Z * A)) : Prop :=
  StronglySorted (λ a b, a.1 < b.1) l.

(** The runs of a list of items, computed from the right: an item joins the
    run that starts just after it when that run has its attributes.  Each
    run comes with its first column and its attributes. *)
Fixpoint runs {A K} `{EqDecision K} (attributes : A → K) (l : list (Z * A))
  : list ((Z * K) * list (Z * A)) :=
  match l with
  | [] => []
  | (i, x) :: l' =>
      match runs attributes l' with
      | ((j, k), g) :: rest =>
          if decide (j = i + 1 ∧ k = attributes x)
          then ((i, k), (i, x) :: g) :: rest
          else ((i, attributes x), [(i, x)]) :: ((j, k), g) :: rest
      | [] => [((i, attributes x), [(i, x)])]
      end
  end.




(** The key that [groupby] yields for a run. *)
Definition run_key {A K} (r : (Z * K) * list (Z * A)) : (option Z * K) * list (Z * A) :=
  ((Some r.1.1, r.1.2), r.2).





(** Example cells and lines. *)
Definition example_cell (t fill : string) (b : bool) : CharacterCell :=
  mkCharacterCell t fill "black" b.

Definition wide_cell_line : gmap Z CharacterCell :=
  {[ 0 := example_cell "ab" "red" false ]}.

Definition gap_line : gmap Z CharacterCell :=
  list_to_map [(0, example_cell "a" "red" false); (1, example_cell "b" "red" false);
               (3, example_cell "c" "red" false); (4, example_cell "d" "red" true);
               (5, example_cell "e" "red" false)].



(** The number of elements of a document whose tag and attributes satisfy
    [P]. *)
Fixpoint count_where (P : string → list (string * string) → bool) (e : Element) : nat :=
  ((if P (tag e) (attrib e) then 1 else 0)
   + (fix sum (cs : list Element) : nat :=
        match cs with
        | [] => 0
        | c :: cs' => count_where P c + sum cs'
        end) (children e))%nat.

Definition count_in (P : string → list (string * string) → bool) (cs : list Element) : nat :=
  sum_list (count_where P <$> cs).


(** The elements below the children [cs] of an element, the first of which
    has index [i]: what [iterdescendants] computes on a list of children. *)
Fixpoint descend_from (i : nat) (cs : list Element) : list (path * Element) :=
  match cs with
  | [] => []
  | c :: cs' =>
      ([i], c) :: (prod_map (cons i) id <$> iterdescendants c) ++ descend_from (S i) cs'
  end.

(** The four numbers of the [viewBox] attribute of a frame, read the way
    [scale] reads them. *)
Definition viewbox (e : Element) : option (list Z) :=
  v ← dict_get "viewBox" (attrib e);
  match traverse (int_or ValueError) (split_ws (replace_char "," " " v)) with
  | Ok numbers => Some numbers
  | Raise _ => None
  end.



(** The sizing metadata of a template is valid: the [template_settings]
    element is there, with a [screen_geometry] child whose [columns] and
    [rows] are positive integers. *)
Definition metadata_valid (root : Element) : Prop :=
  ∃ settings_path settings geometry_path geometry c r tc tr,
    find_settings root = Some (settings_path, settings)
    ∧ find_geometry settings = Some (geometry_path, geometry)
    ∧ dict_get "columns" (attrib geometry) = Some c
    ∧ dict_get "rows" (attrib geometry) = Some r
    ∧ py_int c = Some tc ∧ py_int r = Some tr
    ∧ 0 < tc ∧ 0 < tr.










(** The example template with a root [viewBox] that is not made of
    integers. *)
Definition float_viewbox_template : Element :=
  mkElement (tag example_template)
    [("id", "terminal"); ("viewBox", "0 0 640.5 410"); ("width", "640")] NoText
    (children example_template).

Definition float_viewbox_platform : Platform := {|
  tostring := serialize;
  linesep := String (ascii_of_nat 10) EmptyString;
  parse_template := λ _, Some float_viewbox_template
|}.

(** The id of the definition allocated at position [k], counted from 0. *)
Definition definition_id (k : nat) : string := "g" +:+ py_str (Z.of_nat k + 1).

(** The serialized text group of a line event: the key under which its
    definition is stored. *)
Definition serialized_fragment `{Platform} (cell_width : Z) (event_record : CharacterCellLineEvent)
  : string :=
  match _render_characters (line event_record) cell_width with
  | Ok text_tags => tostring (mkElement "g" [] NoText text_tags)
  | Raise _ => EmptyString
  end.

(** The definition that a [use] element refers to. *)
Definition use_ref (c : Element) : option string :=
  if decide (tag c = "use") then dict_get ("{" +:+ XLINK_NS +:+ "}href") (attrib c) else None.

(** The references of a visibility group, in the order of its lines. *)
Definition group_refs (g : Element) : list string := omap use_ref (children g).

(** A rectangle or a reference: the children of a visibility group that
    come before its toggle directive. *)
Definition plain_child (c : Element) : Prop :=
  (tag c = "rect" ∨ tag c = "use") ∧ children c = [].

(** A stored definition: a group of text fragments. *)
Definition is_definition (d : Element) : Prop :=
  tag d = "g" ∧ Forall (λ c, tag c = "text" ∧ children c = []) (children d).

(** The visibility group of a bucket: rectangles and references, then the
    toggle directive of the bucket. *)
Definition group_of_bucket (g : Element) (bucket : (Z * Z) * list CharacterCellLineEvent)
  : Prop :=
  ∃ cs, g = mkElement "g" [("display", "none")] NoText
              (cs ++ [make_animate_tag bucket.1.1 bucket.1.2])
        ∧ Forall plain_child cs.

(** The definition store, in the middle of a bucket: [order] lists the keys
    in the order in which their ids were allocated. *)
Definition store_ok (defs : gmap string Element) (new_definitions : list (string * Element))
    (order : list string) : Prop :=
  NoDup order
  ∧ (size defs + length new_definitions = length order)%nat
  ∧ (∀ k key, order !! k = Some key →
       ∃ d, (defs !! key = Some d
             ∨ (defs !! key = None ∧ dict_get key new_definitions = Some d))
            ∧ dict_get "id" (attrib d) = Some (definition_id k))
  ∧ (∀ key, key ∉ order → defs !! key = None ∧ dict_get key new_definitions = None)
  ∧ NoDup new_definitions.*1
  ∧ (∀ key, key ∈ new_definitions.*1 → defs !! key = None).

(** The ids of a list of definitions. *)
Definition definition_ids (ds : list Element) : list (option string) :=
  (λ d, dict_get "id" (attrib d)) <$> ds.

(** What a reference to the definition at position [k] says. *)
Definition reference_to (k : nat) : string := "#" +:+ definition_id k.

(** The children of [def_tag]: the style tag, then the definitions in the
    order of their ids [g1], [g2], ... *)
Definition def_children_ok (style_tag : Element) (st : RenderState) : Prop :=
  ∃ ds, def_children st = style_tag :: ds
        ∧ Forall is_definition ds
        ∧ definition_ids ds
          = (λ k, Some (definition_id k)) <$> seq 0 (size (definitions st)).


(** Example records: a header and three line events in two buckets. *)
Definition example_records : list CharacterCellRecord :=
  [Config (mkCharacterCellConfig 100 30 "white" "black");
   LineEvent (mkCharacterCellLineEvent 0 gap_line 0 100);
   LineEvent (mkCharacterCellLineEvent 1 gap_line 0 100);
   LineEvent (mkCharacterCellLineEvent 1 wide_cell_line 100 50)].

(* ================================================================== *)
(** * Notions used to state further properties *)


(** What [groupby] with a [ConsecutiveWithSameAttributes] key yields for a
    group: it is not empty, its key is the index of its first item with the
    attributes of that item, and all its items have these attributes. *)
Definition consecutive_group {A K} (attributes : A → K)
    (g : (option Z * K) * list (Z * A)) : Prop :=
  ∃ i x rest,
    g.2 = (i, x) :: rest
    ∧ g.1 = (Some i, attributes x)
    ∧ Forall (λ y, attributes y.2 = attributes x) g.2.

(** The definition [d] with id [group_id], stored under [key], is the text
    group of the line of [event_record]: [key] is the serialized group and
    [d] the group with its id. *)
Definition line_definition `{Platform} (cell_width : Z) (event_record : CharacterCellLineEvent)
    (group_id key : string) (d : Element) : Prop :=
  ∃ text_tags,
    _render_characters (line event_record) cell_width = Ok text_tags
    ∧ key = tostring (mkElement "g" [] NoText text_tags)
    ∧ d = set_attrib "id" group_id (mkElement "g" [] NoText text_tags).

(** The id that [make_animated_group] gives to the definition it creates
    when [defs] and [new_definitions] hold [n] definitions together. *)
Definition fresh_id (n : nat) : string := "g" +:+ py_str (Z.of_nat n + 1).



(** A predicate on tags and attributes that does not look at the sizing
    attributes [viewBox], [width] and [height]. *)
Definition ignores_sizing (P : string → list (string * string) → bool) : Prop :=
  ∀ t a a',
    (∀ k, k ∉ ["viewBox"; "width"; "height"] → dict_get k a = dict_get k a') →
    P t a = P t a'.

(** The elements with the tag [t]. *)
Definition tagged (t : string) (t' : string) (a : list (string * string)) : bool :=
  bool_decide (t' = t).


(* ================================================================== *)
(** * Facts about Python strings and integers *)

Lemma all_chars_app P s t :
  all_chars P (s +:+ t) = all_chars P s && all_chars P t.
Proof. induction s as [|c s IH]; simpl; [done|]. by rewrite IH, andb_assoc. Qed.

Lemma all_chars_impl (P Q : ascii → bool) s :
  (∀ c, P c = true → Q c = true) → all_chars P s = true → all_chars Q s = true.
Proof.
  intros HPQ. induction s as [|c s IH]; simpl; [done|].
  intros [Hc Hs]%andb_true_iff. rewrite (HPQ _ Hc). by apply IH.
Qed.

Lemma string_of_uint_digits d :
  all_chars is_digit (NilEmpty.string_of_uint d) = true.
Proof. induction d; simpl; auto. Qed.

Lemma is_digit_not_space c : is_digit c = true → isspace c = false.
Proof.
  destruct c as [[] [] [] [] [] [] [] []]; vm_compute; congruence.
Qed.


Lemma lstrip_no_space c s : isspace c = false → lstrip (String c s) = String c s.
Proof. intros Hc. simpl. by rewrite Hc. Qed.

Lemma rstrip_no_space s :
  all_chars (λ c, negb (isspace c)) s = true → rstrip s = s.
Proof.
  induction s as [|c s IH]; simpl; [done|].
  intros [Hc Hs]%andb_true_iff. rewrite (IH Hs).
  destruct s; [|done]. by destruct (isspace c).
Qed.

Lemma strip_no_space s :
  all_chars (λ c, negb (isspace c)) s = true → strip s = s.
Proof.
  intros Hs. unfold strip. destruct s as [|c s]; [done|].
  simpl in Hs. apply andb_true_iff in Hs as [Hc Hs'].
  rewrite lstrip_no_space by by destruct (isspace c).
  apply rstrip_no_space. simpl. by rewrite Hc, Hs'.
Qed.



Lemma pos_numeral_digits p : all_chars is_digit (pos_numeral p) = true.
Proof. apply string_of_uint_digits. Qed.


Lemma py_str_pos p : py_str (Z.pos p) = pos_numeral p.
Proof.
  unfold py_str, pos_numeral. simpl.
  pose proof (DecimalPos.Unsigned.to_uint_nonnil p) as Hn.
  unfold NilZero.string_of_uint. by destruct (Pos.to_uint p).
Qed.


Lemma py_str_0 : py_str 0 = "0".
Proof. reflexivity. Qed.

Lemma py_str_nonneg_digits z : 0 ≤ z → all_chars is_digit (py_str z) = true.
Proof.
  destruct z as [|p|p]; [done| |lia]. intros _. rewrite py_str_pos.
  apply pos_numeral_digits.
Qed.







(* ================================================================== *)
(** * The colour resolver *)

Lemma bright_promotion i name :
  _COLORS !! i = Some name →
  startswith "bright" name = false
  ∧ color_numbers ("bright" +:+ name) = Some (Z.of_nat i + 8)
  ∧ color_numbers name = Some (Z.of_nat i)
  ∧ (Z.of_nat i + 8) `mod` 8 = Z.of_nat i.
Proof.
  intros Hi.
  do 8 (destruct i as [|i]; [injection Hi as <-; by vm_compute|]).
  done.
Qed.

Lemma resolve_text_color_reverse data fg bg b r r' palette :
  resolve_text_color (mkChar data fg bg b r) palette
  = resolve_text_color (mkChar data fg bg b r') palette.
Proof. reflexivity. Qed.

Lemma resolve_background_color_reverse data fg bg b r r' palette :
  resolve_background_color (mkChar data fg bg b r) palette
  = resolve_background_color (mkChar data fg bg b r') palette.
Proof. reflexivity. Qed.

(** C9. A cell with [reverse] set resolves to the cell that it resolves to
    with [reverse] unset, text and background colours exchanged: the exchange
    comes after every other rule, and resolution raises in the same cases. *)
Theorem from_pyte_reverse_swaps (data fg bg : string) (b : bool)
    (palette : gmap PKey string) :
  from_pyte (mkChar data fg bg b true) palette
  = swap_colors <$> from_pyte (mkChar data fg bg b false) palette.
Proof.
  unfold from_pyte.
  rewrite (resolve_text_color_reverse data fg bg b true false).
  rewrite (resolve_background_color_reverse data fg bg b true false).
  destruct (resolve_text_color _ palette) as [tc|e]; [|reflexivity].
  destruct (resolve_background_color _ palette) as [bc|e]; reflexivity.
Qed.


Lemma resolve_background_color_named data fgd name b rev palette n :
  color_numbers name = Some n →
  resolve_background_color (mkChar data fgd name b rev) palette
  = getitem (palette !! KInt n).
Proof.
  intros Hn. unfold resolve_background_color. simpl.
  destruct (decide (name = "default")) as [->|_]; [by vm_compute in Hn|].
  by rewrite Hn.
Qed.




(* ================================================================== *)
(** * The toggle directive of a group *)

Lemma append_cons (c : ascii) (s t : string) : String c s +:+ t = String c (s +:+ t).
Proof. reflexivity. Qed.

Lemma append_assoc (s t u : string) : (s +:+ t) +:+ u = s +:+ (t +:+ u).
Proof. induction s as [|c s IH]; [done|]. rewrite !append_cons. by f_equal. Qed.

Lemma append_empty_r (s : string) : s +:+ "" = s.
Proof. induction s as [|c s IH]; [done|]. rewrite append_cons. by f_equal. Qed.

Lemma split_on_no_sep sep cur s :
  all_chars (λ c, negb (Ascii.eqb c sep)) s = true →
  ∀ rest, split_on sep cur (s +:+ String sep rest)
          = (cur +:+ s) :: split_on sep EmptyString rest.
Proof.
  revert cur. induction s as [|c s IH]; intros cur Hs rest; simpl.
  - by rewrite Ascii.eqb_refl, append_empty_r.
  - simpl in Hs. apply andb_true_iff in Hs as [Hc Hs].
    destruct (Ascii.eqb c sep); [done|].
    rewrite (IH _ Hs). by rewrite append_assoc.
Qed.

Lemma split_on_last sep cur s :
  all_chars (λ c, negb (Ascii.eqb c sep)) s = true →
  split_on sep cur s = [cur +:+ s].
Proof.
  revert cur. induction s as [|c s IH]; intros cur Hs; simpl.
  - by rewrite append_empty_r.
  - simpl in Hs. apply andb_true_iff in Hs as [Hc Hs].
    destruct (Ascii.eqb c sep); [done|].
    rewrite (IH _ Hs). by rewrite append_assoc.
Qed.

Lemma is_digit_plain c :
  is_digit c = true → negb (Ascii.eqb c ";") = true ∧ negb (isspace c) = true.
Proof. destruct c as [[] [] [] [] [] [] [] []]; vm_compute; intuition congruence. Qed.

Lemma digits_no_semicolon s :
  all_chars is_digit s = true → all_chars (λ c, negb (Ascii.eqb c ";")) s = true.
Proof. apply all_chars_impl. intros c Hc. by apply is_digit_plain. Qed.

Lemma digits_no_space s :
  all_chars is_digit s = true → all_chars (λ c, negb (isspace c)) s = true.
Proof. apply all_chars_impl. intros c Hc. by apply is_digit_plain. Qed.

(** The two triggers of the [begin] attribute. *)
Lemma begin_triggers_begin_time time :
  0 ≤ time →
  begin_triggers (begin_time time)
  = if decide (time = 0) then ["0ms"; LAST_ANIMATION_ID +:+ ".end"]
    else [py_str time +:+ "ms";
          LAST_ANIMATION_ID +:+ ".end+" +:+ py_str time +:+ "ms"].
Proof.
  intros Htime. unfold begin_time. destruct (decide (time = 0)) as [->|Hne]; [done|].
  pose proof (py_str_nonneg_digits time Htime) as Hd.
  set (n := py_str time) in *.
  unfold begin_triggers.
  replace (n +:+ "ms; " +:+ LAST_ANIMATION_ID +:+ ".end+" +:+ n +:+ "ms")
    with ((n +:+ "ms") +:+ String ";" (" " +:+ LAST_ANIMATION_ID +:+ ".end+" +:+ n +:+ "ms"))
    by (by rewrite append_assoc).
  pose proof (digits_no_semicolon _ Hd) as Hsemi.
  pose proof (digits_no_space _ Hd) as Hspace.
  rewrite (split_on_no_sep ";" "" (n +:+ "ms"));
    [|rewrite all_chars_app, Hsemi; done].
  rewrite (split_on_last ";" "");
    [|rewrite !all_chars_app, Hsemi; done].
  simpl. f_equal.
  - apply strip_no_space. rewrite all_chars_app, Hspace. done.
  - f_equal.
    change (strip (" " +:+ ?s)) with (rstrip s).
    apply (rstrip_no_space (LAST_ANIMATION_ID +:+ ".end+" +:+ n +:+ "ms")).
    rewrite !all_chars_app, Hspace. done.
Qed.

Lemma make_animated_group_children `{Platform} records time duration cell_height
    cell_width default_bg_color defs g new_definitions :
  make_animated_group records time duration cell_height cell_width default_bg_color defs
  = Ok (g, new_definitions) →
  ∃ group_children,
    foldlM (render_event cell_height cell_width default_bg_color defs) ([], []) records
    = Ok (group_children, new_definitions)
    ∧ g = mkElement "g" [("display", "none")] NoText
            (group_children ++ [make_animate_tag time duration]).
Proof.
  unfold make_animated_group.
  destruct (foldlM _ _ records) as [[cs nd]|e]; simpl; [|done].
  intros [= <- <-]. eauto.
Qed.

(** C1. The toggle directive of a bucket is the last child of its group, and
    its activation condition has exactly two triggers: for [time = 0], the
    absolute [0ms] and the end of the loop anchor; for [time > 0], the
    absolute time and the end of the loop anchor plus that time. *)
Theorem toggle_directive_triggers `{Platform} (records : list CharacterCellLineEvent)
    (time duration cell_height cell_width : Z) (default_bg_color : string)
    (defs : gmap string Element) (g : Element)
    (new_definitions : list (string * Element)) :
  0 ≤ time →
  make_animated_group records time duration cell_height cell_width default_bg_color defs
  = Ok (g, new_definitions) →
  ∃ (group_children : list Element) (animation : Element) (begin : string),
    children g = group_children ++ [animation]
    ∧ tag animation = "animate"
    ∧ dict_get "begin" (attrib animation) = Some begin
    ∧ begin_triggers begin
      = if decide (time = 0)
        then ["0ms"; LAST_ANIMATION_ID +:+ ".end"]
        else [py_str time +:+ "ms";
              LAST_ANIMATION_ID +:+ ".end+" +:+ py_str time +:+ "ms"].
Proof.
  intros Htime Hg.
  apply make_animated_group_children in Hg as (cs & _ & ->).
  exists cs, (make_animate_tag time duration), (begin_time time).
  repeat split. by apply begin_triggers_begin_time.
Qed.

(* ================================================================== *)
(** * The grouping engine *)

Section Grouping.
Context {A K : Type} `{EqDecision K} (attributes : A → K).

#[local] Abbreviation call := (consecutive_call attributes).

Lemma runs_cons_inv i x l' :
  ∃ g rest, runs attributes ((i, x) :: l') = ((i, attributes x), (i, x) :: g) :: rest.
Proof.
  simpl. destruct (runs attributes l') as [|[[j k] g] rest]; [by eauto|].
  destruct (decide _) as [[_ ->]|_]; eauto.
Qed.

(** After an item at column [i] with attributes [a], in a run that started
    at [g]. *)
Lemma keyed_next g i a j y l :
  keyed call (mkConsecutive g (Some i) (Some a)) ((j, y) :: l)
  = if decide (j = i + 1 ∧ attributes y = a)
    then ((g, a), (j, y)) :: keyed call (mkConsecutive g (Some j) (Some a)) l
    else ((Some j, attributes y), (j, y))
           :: keyed call (mkConsecutive (Some j) (Some j) (Some (attributes y))) l.
Proof.
  simpl. destruct (decide (j = i + 1 ∧ attributes y = a)) as [[-> <-]|Hn].
  - rewrite decide_False; [done|].
    intros [Hc|Hc]; apply Hc; f_equal; lia.
  - rewrite decide_True; [done|].
    destruct (decide (j = i + 1)) as [->|]; [right|left]; intros [=]; [|lia].
    apply Hn. done.
Qed.

Lemma group_keyed_runs l i x c :
  c ≤ i →
  increasing ((i, x) :: l) →
  group_keyed (((Some c, attributes x), (i, x))
                 :: keyed call (mkConsecutive (Some c) (Some i) (Some (attributes x))) l)
  = match runs attributes ((i, x) :: l) with
    | r :: rest => ((Some c, r.1.2), r.2) :: (run_key <$> rest)
    | [] => []
    end.
Proof.
  revert i x c. induction l as [|[j y] l IH]; intros i x c Hc Hinc; [done|].
  apply StronglySorted_inv in Hinc as [Hinc Hall].
  assert (i < j) as Hij by (by apply Forall_cons in Hall as [? _]).
  rewrite keyed_next.
  destruct (runs_cons_inv j y l) as (g & rest & Hruns).
  change (runs attributes ((i, x) :: (j, y) :: l))
    with (match runs attributes ((j, y) :: l) with
          | ((j', k), g) :: rest =>
              if decide (j' = i + 1 ∧ k = attributes x)
              then ((i, k), (i, x) :: g) :: rest
              else ((i, attributes x), [(i, x)]) :: ((j', k), g) :: rest
          | [] => [((i, attributes x), [(i, x)])]
          end).
  destruct (decide (j = i + 1 ∧ attributes y = attributes x)) as [[-> Hyx]|Hn].
  - change (group_keyed (?kx :: ?ky :: ?r))
      with (match group_keyed (ky :: r) with
            | (k', g) :: rest =>
                if decide (kx.1 = k') then (kx.1, kx.2 :: g) :: rest
                else (kx.1, [kx.2]) :: (k', g) :: rest
            | [] => [(kx.1, [kx.2])]
            end).
    rewrite <- Hyx at 1 2. rewrite (IH (i + 1) y c) by (done || lia).
    rewrite Hruns. simpl. rewrite Hyx.
    rewrite !decide_True by done. done.
  - change (group_keyed (?kx :: ?ky :: ?r))
      with (match group_keyed (ky :: r) with
            | (k', g) :: rest =>
                if decide (kx.1 = k') then (kx.1, kx.2 :: g) :: rest
                else (kx.1, [kx.2]) :: (k', g) :: rest
            | [] => [(kx.1, [kx.2])]
            end).
    rewrite (IH j y j) by (done || lia).
    rewrite Hruns. simpl.
    rewrite decide_False by (intros [= -> _]; lia).
    rewrite decide_False by (intros [-> ?]; apply Hn; done).
    done.
Qed.

(** On items in increasing order of column, the groups of [groupby] with
    the stateful key are the runs. *)
Lemma groupby_consecutive_runs l :
  increasing l →
  groupby_consecutive attributes l = run_key <$> runs attributes l.
Proof.
  destruct l as [|[i x] l]; [done|]. intros Hinc.
  unfold groupby_consecutive.
  change (keyed call consecutive_init ((i, x) :: l))
    with (((Some i, attributes x), (i, x))
            :: keyed call (mkConsecutive (Some i) (Some i) (Some (attributes x))) l).
  rewrite (group_keyed_runs l i x i) by (done || lia).
  destruct (runs_cons_inv i x l) as (g & rest & ->). done.
Qed.



Lemma runs_nil_inv l : runs attributes l = [] → l = [].
Proof.
  destruct l as [|[i x] l]; [done|].
  destruct (runs_cons_inv i x l) as (g & rest & ->). done.
Qed.


















End Grouping.

(* ================================================================== *)
(** * Lines of the screen and their shapes *)

#[local] Instance item_le_transitive {A} : Transitive (@item_le A).
Proof. unfold item_le. intros x y z ??. lia. Qed.

#[local] Instance item_le_total {A} : Total (@item_le A).
Proof. unfold item_le. intros x y. lia. Qed.

Lemma sorted_items_elem_of {A} (d : gmap Z A) c x :
  (c, x) ∈ sorted_items d ↔ d !! c = Some x.
Proof.
  unfold sorted_items. rewrite merge_sort_Permutation. apply elem_of_map_to_list.
Qed.

Lemma sorted_nodup_increasing {A} (l : list (Z * A)) :
  StronglySorted item_le l → NoDup l.*1 → increasing l.
Proof.
  induction 1 as [|[i x] l Hs IH Hall]; intros Hnd; [constructor|].
  apply NoDup_cons in Hnd as [Hi Hnd]. constructor; [by apply IH|].
  rewrite Forall_forall in *. intros [j y] Hy.
  specialize (Hall _ Hy). unfold item_le in Hall. simpl in *.
  assert (i ≠ j); [|lia].
  intros ->. apply Hi. by apply (list_elem_of_fmap_2 fst l (j, y)).
Qed.

Lemma sorted_items_increasing {A} (d : gmap Z A) : increasing (sorted_items d).
Proof.
  apply sorted_nodup_increasing.
  - apply StronglySorted_merge_sort; apply _.
  - unfold sorted_items. rewrite merge_sort_Permutation. apply NoDup_fst_map_to_list.
Qed.

Lemma increasing_filter {A} (P : Z * A → Prop) `{∀ x, Decision (P x)} (l : list (Z * A)) :
  increasing l → increasing (filter P l).
Proof.
  induction 1 as [|x l Hs IH Hall]; [constructor|].
  rewrite filter_cons. destruct (decide (P x)); [|done].
  constructor; [done|]. rewrite Forall_forall in *.
  intros y [_ Hy]%list_elem_of_filter. by apply Hall.
Qed.

Lemma traverse_Ok {A B} (f : A → result B) (g : A → B) (l : list A) :
  (∀ x, x ∈ l → f x = Ok (g x)) → traverse f l = Ok (g <$> l).
Proof.
  induction l as [|x l IH]; intros Hf; [done|]. simpl.
  rewrite (Hf x) by by left. simpl.
  rewrite IH by (intros y Hy; apply Hf; by right). done.
Qed.

(** A rectangle for every run of cells of one background colour. *)
Lemma rect_tags_runs non_default_bg_cells height cell_height cell_width :
  increasing non_default_bg_cells →
  rect_tags non_default_bg_cells height cell_height cell_width
  = Ok ((λ r, make_rect_tag r.1.1 (Z.of_nat (length r.2)) height cell_width cell_height r.1.2)
          <$> runs background_color non_default_bg_cells).
Proof.
  intros Hinc. unfold rect_tags. rewrite groupby_consecutive_runs by done.
  rewrite (traverse_Ok _ (λ r, make_rect_tag (default 0 r.1.1) (Z.of_nat (length r.2)) height
                             cell_width cell_height r.1.2)).
  - by rewrite <- list_fmap_compose.
  - intros [[c k] g] ([[c' k'] g'] & [= -> -> ->] & _)%list_elem_of_fmap. done.
Qed.

(** A text fragment for every run of cells of one colour and weight. *)
Lemma text_tags_runs line cell_width :
  increasing line →
  text_tags line cell_width
  = Ok ((λ r, make_text_tag r.1.1 r.1.2 (group_text r.2) cell_width)
          <$> runs text_attributes line).
Proof.
  intros Hinc. unfold text_tags. rewrite groupby_consecutive_runs by done.
  rewrite (traverse_Ok _ (λ r, make_text_tag (default 0 r.1.1) r.1.2 (group_text r.2) cell_width)).
  - by rewrite <- list_fmap_compose.
  - intros [[c k] g] ([[c' k'] g'] & [= -> -> ->] & _)%list_elem_of_fmap. done.
Qed.











(* ================================================================== *)
(** * Documents *)

Lemma Element_induction (P : Element → Prop) :
  (∀ t a x cs, Forall P cs → P (mkElement t a x cs)) → ∀ e, P e.
Proof.
  intros Hstep. fix IH 1. intros [t a x cs]. apply Hstep.
  induction cs as [|c cs IHcs]; constructor; [apply IH|apply IHcs].
Qed.

Lemma dict_get_set_eq {V} k (v : V) d : dict_get k (dict_set k v d) = Some v.
Proof.
  induction d as [|[k' v'] d IH]; simpl.
  - by rewrite decide_True.
  - destruct (decide (k' = k)) as [->|Hne]; simpl.
    + by rewrite decide_True.
    + by rewrite decide_False.
Qed.

Lemma dict_get_set_ne {V} k k' (v : V) d :
  k ≠ k' → dict_get k' (dict_set k v d) = dict_get k' d.
Proof.
  intros Hne. induction d as [|[k0 v0] d IH]; simpl.
  - by rewrite decide_False.
  - destruct (decide (k0 = k)) as [->|Hne0]; simpl.
    + by rewrite !decide_False.
    + by rewrite IH.
Qed.

Lemma count_where_unfold P e :
  count_where P e
  = ((if P (tag e) (attrib e) then 1 else 0) + count_in P (children e))%nat.
Proof.
  destruct e as [t a x cs]. unfold count_in. simpl. f_equal.
  induction cs as [|c cs IH]; [done|]. simpl. by rewrite IH.
Qed.


Lemma count_in_cons P c cs :
  count_in P (c :: cs) = (count_where P c + count_in P cs)%nat.
Proof. done. Qed.

Lemma count_in_insert P cs i c :
  cs !! i = Some c →
  ∀ c', (count_in P (<[i := c']> cs) + count_where P c
         = count_in P cs + count_where P c')%nat.
Proof.
  revert i. induction cs as [|c0 cs IH]; intros [|i] Hc c'; simplify_eq/=.
  - rewrite !count_in_cons. lia.
  - rewrite !count_in_cons. specialize (IH _ Hc c'). lia.
Qed.

Lemma count_in_delete P cs i c :
  cs !! i = Some c →
  (count_in P (delete i cs) + count_where P c = count_in P cs)%nat.
Proof.
  revert i. induction cs as [|c0 cs IH]; intros [|i] Hc; simplify_eq/=.
  - rewrite !count_in_cons. lia.
  - rewrite !count_in_cons. specialize (IH _ Hc). lia.
Qed.

Lemma alter_insert {A} (f : A → A) (l : list A) i x :
  l !! i = Some x → alter f i l = <[i := f x]> l.
Proof.
  revert i. induction l as [|y l IH]; intros [|i] Hx; simplify_eq/=; [done|].
  f_equal. by apply IH.
Qed.

(** Mutating the element at [p] changes the count by what it changes there. *)
Lemma get_cons i p e : get (i :: p) e = children e !! i ≫= get p.
Proof. reflexivity. Qed.

Lemma update_cons i p f e :
  update (i :: p) f e = set_children (alter (update p f) i (children e)) e.
Proof. reflexivity. Qed.

Lemma count_where_set_children P cs e :
  count_where P (set_children cs e)
  = ((if P (tag e) (attrib e) then 1 else 0) + count_in P cs)%nat.
Proof. by rewrite count_where_unfold. Qed.

Lemma count_where_update P p f e s :
  get p e = Some s →
  (count_where P (update p f e) + count_where P s
   = count_where P e + count_where P (f s))%nat.
Proof.
  revert e. induction p as [|i p IH]; intros e Hget.
  - injection Hget as ->. simpl. lia.
  - rewrite get_cons in Hget.
    destruct (children e !! i) as [c|] eqn:Hc; [|done]. simpl in Hget.
    specialize (IH c Hget).
    rewrite update_cons, count_where_set_children, (count_where_unfold P e).
    rewrite (alter_insert _ _ _ _ Hc).
    pose proof (count_in_insert P (children e) i c Hc (update p f c)). lia.
Qed.

(** Removing the element at [p] takes its elements off the count. *)
Lemma remove_cons_cons i j p e :
  remove (i :: j :: p) e
  = match children e !! i with
    | Some c => c' ← remove (j :: p) c; Ok (set_children (<[i := c']> (children e)) e)
    | None => Ok e
    end.
Proof. reflexivity. Qed.

Lemma count_where_remove P p e e' s :
  get p e = Some s →
  remove p e = Ok e' →
  (count_where P e' + count_where P s = count_where P e)%nat.
Proof.
  revert e e'. induction p as [|i p IH]; intros e e' Hget Hrem; [by simpl in Hrem|].
  rewrite get_cons in Hget.
  destruct (children e !! i) as [c|] eqn:Hc; [|done]. simpl in Hget.
  destruct p as [|j p].
  - injection Hget as ->. injection Hrem as <-.
    rewrite count_where_set_children, (count_where_unfold P e).
    pose proof (count_in_delete P (children e) i s Hc). lia.
  - rewrite remove_cons_cons, Hc in Hrem.
    destruct (remove (j :: p) c) as [c'|] eqn:Hc'; simpl in Hrem; [|done].
    injection Hrem as <-. specialize (IH c c' Hget Hc').
    rewrite count_where_set_children, (count_where_unfold P e).
    pose proof (count_in_insert P (children e) i c Hc c'). lia.
Qed.

Lemma get_update p f e s :
  get p e = Some s → get p (update p f e) = Some (f s).
Proof.
  revert e. induction p as [|i p IH]; intros e Hget.
  - simpl in *. congruence.
  - rewrite get_cons in Hget.
    destruct (children e !! i) as [c|] eqn:Hc; [|done]. simpl in Hget.
    rewrite update_cons, get_cons. simpl.
    rewrite list_lookup_alter, Hc, decide_True by done. simpl. by apply IH.
Qed.



Lemma remove_is_Ok p e : p ≠ [] → is_Ok (remove p e).
Proof.
  revert e. induction p as [|i p IH]; intros e Hp; [done|].
  destruct p as [|j p]; [by eexists|]. rewrite remove_cons_cons.
  destruct (children e !! i) as [c|]; [|by eexists].
  destruct (IH c) as [c' ->]; [done|]. by eexists.
Qed.

Lemma iterdescendants_unfold e : iterdescendants e = descend_from 0 (children e).
Proof.
  destruct e as [t a x cs]. simpl. generalize 0%nat.
  induction cs as [|c cs IH]; intros i; [done|]. simpl. by rewrite IH.
Qed.

Lemma iterdescendants_children e e' :
  children e = children e' → iterdescendants e = iterdescendants e'.
Proof. intros Hcs. by rewrite !iterdescendants_unfold, Hcs. Qed.

Lemma get_app p q e : get (p ++ q) e = get p e ≫= get q.
Proof.
  revert e. induction p as [|i p IH]; intros e; [done|].
  rewrite <- app_comm_cons, !get_cons.
  destruct (children e !! i) as [c|]; [|done]. simpl. apply IH.
Qed.

Lemma descend_from_get cs :
  Forall (λ c, ∀ p d, (p, d) ∈ iterdescendants c → p ≠ [] ∧ get p c = Some d) cs →
  ∀ cs0 p d e,
    children e = cs0 ++ cs →
    (p, d) ∈ descend_from (length cs0) cs →
    p ≠ [] ∧ get p e = Some d.
Proof.
  induction 1 as [|c cs Hc _ IH]; intros cs0 p d e He Hin.
  { by apply elem_of_nil in Hin. }
  simpl in Hin. apply elem_of_cons in Hin as [[= -> ->]|Hin].
  - split; [done|]. rewrite get_cons, He, list_lookup_middle by done. done.
  - apply elem_of_app in Hin as [Hin|Hin].
    + apply list_elem_of_fmap in Hin as ([p' d'] & [= -> ->] & Hin).
      destruct (Hc _ _ Hin) as [_ Hget]. split; [done|].
      rewrite get_cons, He, list_lookup_middle by done. done.
    + apply (IH (cs0 ++ [c])); [by rewrite <- app_assoc|].
      by rewrite length_app, Nat.add_1_r.
Qed.

(** An element found below [e] is where its path says. *)
Lemma iterdescendants_get e p d :
  (p, d) ∈ iterdescendants e → p ≠ [] ∧ get p e = Some d.
Proof.
  revert p d. induction e as [t a x cs IH] using Element_induction. intros p d Hin.
  rewrite iterdescendants_unfold in Hin.
  by apply (descend_from_get cs IH [] p d).
Qed.

Lemma iterchildren_get e p d :
  (p, d) ∈ iterchildren e → p ≠ [] ∧ get p e = Some d.
Proof.
  unfold iterchildren. intros (i & c & [= -> ->] & Hc)%elem_of_lookup_imap.
  split; [done|]. by rewrite get_cons, Hc.
Qed.

Lemma findall_descendants_get t P e p d :
  (p, d) ∈ findall_descendants t P e →
  p ≠ [] ∧ get p e = Some d ∧ tag d = t ∧ P d = true.
Proof.
  unfold findall_descendants. intros [HP Hin]%list_elem_of_filter.
  simpl in HP. apply Is_true_true, andb_true_iff in HP as [Ht HP].
  apply bool_decide_eq_true in Ht.
  destruct (iterdescendants_get _ _ _ Hin). done.
Qed.

Lemma findall_children_get t P e p d :
  (p, d) ∈ findall_children t P e →
  p ≠ [] ∧ get p e = Some d ∧ tag d = t ∧ P d = true.
Proof.
  unfold findall_children. intros [HP Hin]%list_elem_of_filter.
  simpl in HP. apply Is_true_true, andb_true_iff in HP as [Ht HP].
  apply bool_decide_eq_true in Ht.
  destruct (iterchildren_get _ _ _ Hin). done.
Qed.

Lemma findall_descendants_child_get t1 t2 P e p d :
  (p, d) ∈ findall_descendants_child t1 t2 P e →
  p ≠ [] ∧ get p e = Some d ∧ tag d = t2 ∧ P d = true.
Proof.
  unfold findall_descendants_child.
  intros ([q d1] & Hin & Hd1)%list_elem_of_bind.
  apply list_elem_of_fmap in Hin as ([q' d'] & [= -> ->] & Hin).
  apply findall_descendants_get in Hd1 as (_ & Hq & _).
  apply findall_children_get in Hin as (Hq' & Hget & Ht & HP). simpl in *.
  split; [by destruct q|]. rewrite get_app, Hq. done.
Qed.

Lemma head_elem_of {A} (l : list A) x : head l = Some x → x ∈ l.
Proof. destruct l; [done|]. intros [= ->]. by left. Qed.

Lemma find_screen_get root p screen :
  find_screen root = Some (p, screen) →
  p ≠ [] ∧ get p root = Some screen.
Proof.
  intros Hin%head_elem_of. apply findall_descendants_get in Hin as (? & ? & _). done.
Qed.

Lemma find_settings_get root p settings :
  find_settings root = Some (p, settings) →
  p ≠ [] ∧ get p root = Some settings
  ∧ tag settings = qname TERMTOSVG_NS "template_settings".
Proof.
  intros Hin%head_elem_of.
  apply findall_descendants_child_get in Hin as (? & ? & ? & _). done.
Qed.


Lemma find_screen_children e e' :
  children e = children e' → find_screen e = find_screen e'.
Proof.
  intros Hcs. unfold find_screen, findall_descendants.
  by rewrite (iterdescendants_children e e').
Qed.



(* ================================================================== *)
(** * The template scaler *)








Lemma traverse_cons {A B} (f : A → result B) x l :
  traverse f (x :: l) = (y ← f x; ys ← traverse f l; Ok (y :: ys)).
Proof. reflexivity. Qed.



Lemma viewbox_set_attrib_ne k v e :
  k ≠ "viewBox" → viewbox (set_attrib k v e) = viewbox e.
Proof. intros Hk. unfold viewbox. simpl. by rewrite dict_get_set_ne. Qed.

Lemma scale_attribute_inv element attribute delta element' :
  scale_attribute element attribute delta = Ok element' →
  match dict_get attribute (attrib element) with
  | Some v => ∃ n, py_int v = Some n
                   ∧ element' = set_attrib attribute (py_str (n + delta)) element
  | None => element' = element
  end.
Proof.
  unfold scale_attribute. destruct (dict_get _ _) as [v|]; [|by intros [= <-]].
  unfold int_or. destruct (py_int v) as [n|]; [|done]. intros [= <-]. eauto.
Qed.

(** What a successful [scale] has read and written. *)
Lemma scale_inv cell_width cell_height element template_columns template_rows
    columns rows element' :
  scale cell_width cell_height element template_columns template_rows columns rows
  = Ok element' →
  ∃ v x y w h element1 element2,
    dict_get "viewBox" (attrib element) = Some v
    ∧ traverse (int_or ValueError) (split_ws (replace_char "," " " v)) = Ok [x; y; w; h]
    ∧ element1
      = set_attrib "viewBox"
          (join " " (py_str <$> [x; y; w + cell_width * (columns - template_columns);
                                 h + cell_height * (rows - template_rows)])) element
    ∧ scale_attribute element1 "width" (cell_width * (columns - template_columns))
      = Ok element2
    ∧ scale_attribute element2 "height" (cell_height * (rows - template_rows))
      = Ok element'.
Proof.
  unfold scale. destruct (dict_get "viewBox" _) as [v|]; [|done].
  cbn [mbind result_bind].
  destruct (traverse _ _) as [numbers|] eqn:Hnum; [|done]. cbn [mbind result_bind].
  destruct numbers as [|x [|y [|w [|h [|]]]]]; try done.
  cbn [foldlM mbind result_bind].
  destruct (scale_attribute _ "width" _) as [element2|] eqn:H2; [|done].
  cbn [mbind result_bind].
  destruct (scale_attribute element2 _ _) as [element3|] eqn:H3; [|done].
  intros [= <-]. eexists v, x, y, w, h, _, element2. by repeat split.
Qed.

Lemma scale_attribute_fields element attribute delta element' :
  scale_attribute element attribute delta = Ok element' →
  tag element' = tag element ∧ children element' = children element
  ∧ elem_text element' = elem_text element
  ∧ ∀ k, k ≠ attribute → dict_get k (attrib element') = dict_get k (attrib element).
Proof.
  intros H%scale_attribute_inv. destruct (dict_get _ _) as [v|].
  - destruct H as (n & _ & ->). repeat split. intros k Hk. simpl.
    by rewrite dict_get_set_ne.
  - by subst.
Qed.

(** [scale] only touches the three sizing attributes. *)
Lemma scale_fields cell_width cell_height element template_columns template_rows
    columns rows element' :
  scale cell_width cell_height element template_columns template_rows columns rows
  = Ok element' →
  tag element' = tag element ∧ children element' = children element
  ∧ elem_text element' = elem_text element
  ∧ ∀ k, k ∉ ["viewBox"; "width"; "height"] →
         dict_get k (attrib element') = dict_get k (attrib element).
Proof.
  intros (v & x & y & w & h & e1 & e2 & _ & _ & -> & Hw & Hh)%scale_inv.
  apply scale_attribute_fields in Hw as (Ht1 & Hc1 & Hx1 & Ha1).
  apply scale_attribute_fields in Hh as (Ht2 & Hc2 & Hx2 & Ha2).
  rewrite Ht2, Ht1, Hc2, Hc1, Hx2, Hx1. repeat split.
  intros k Hk. rewrite Ha2, Ha1 by set_solver. simpl.
  rewrite dict_get_set_ne by set_solver. done.
Qed.



(** What a successful [resize_template] has done. *)
Lemma resize_template_inv `{Platform} template columns rows cell_width cell_height doc :
  resize_template template columns rows cell_width cell_height = Ok doc →
  ∃ root settings_path template_columns template_rows root1 screen_path screen screen1,
    parse_template template = Some root
    ∧ template_geometry root = Ok (settings_path, template_columns, template_rows)
    ∧ 0 < template_columns ∧ 0 < template_rows
    ∧ scale cell_width cell_height root template_columns template_rows columns rows
      = Ok root1
    ∧ find_screen root = Some (screen_path, screen)
    ∧ get screen_path root1 = Some screen
    ∧ scale cell_width cell_height screen template_columns template_rows columns rows
      = Ok screen1
    ∧ remove settings_path (update screen_path (λ _, screen1) root1) = Ok doc.
Proof.
  unfold resize_template.
  destruct (parse_template template) as [root|]; [|done]. cbn [mbind result_bind].
  destruct (template_geometry root) as [[[sp tc] tr]|] eqn:Hgeo; [|done].
  cbn [mbind result_bind].
  destruct (decide (tr ≤ 0 ∨ tc ≤ 0)) as [|Hpos]; [done|].
  destruct (scale _ _ root _ _ _ _) as [root1|] eqn:Hroot; [|done].
  cbn [mbind result_bind].
  destruct (find_screen root1) as [[scp screen]|] eqn:Hscreen; [|done].
  cbn [mbind result_bind]. unfold updateM.
  destruct (find_screen_get _ _ _ Hscreen) as [_ Hget]. rewrite Hget.
  destruct (scale _ _ screen _ _ _ _) as [screen1|] eqn:Hsc; [|done].
  cbn [mbind result_bind]. intros Hrem.
  exists root, sp, tc, tr, root1, scp, screen, screen1.
  apply scale_fields in Hroot as Hf. destruct Hf as (_ & Hcs & _).
  rewrite (find_screen_children root1 root Hcs) in Hscreen.
  repeat split; (done || lia).
Qed.



Lemma metadata_valid_inv root settings_path settings :
  find_settings root = Some (settings_path, settings) →
  metadata_valid root →
  ∃ geometry_path geometry c r tc tr,
    find_geometry settings = Some (geometry_path, geometry)
    ∧ dict_get "columns" (attrib geometry) = Some c
    ∧ dict_get "rows" (attrib geometry) = Some r
    ∧ py_int c = Some tc ∧ py_int r = Some tr
    ∧ 0 < tc ∧ 0 < tr.
Proof.
  intros Hs (sp' & s' & gp & g & c & r & tc & tr & Hs' & H).
  rewrite Hs in Hs'. injection Hs' as <- <-. by exists gp, g, c, r, tc, tr.
Qed.

Lemma metadata_valid_inv_geometry root settings_path settings geometry_path geometry :
  find_settings root = Some (settings_path, settings) →
  find_geometry settings = Some (geometry_path, geometry) →
  metadata_valid root →
  ∃ c r tc tr,
    dict_get "columns" (attrib geometry) = Some c
    ∧ dict_get "rows" (attrib geometry) = Some r
    ∧ py_int c = Some tc ∧ py_int r = Some tr
    ∧ 0 < tc ∧ 0 < tr.
Proof.
  intros Hs Hg (gp & g & c & r & tc & tr & Hg' & H)%(metadata_valid_inv _ _ _ Hs).
  rewrite Hg in Hg'. injection Hg' as <- <-. by exists c, r, tc, tr.
Qed.

(** How [template_geometry] ends. *)
Lemma template_geometry_spec root :
  match template_geometry root with
  | Ok (settings_path, tc, tr) =>
      (∃ settings, find_settings root = Some (settings_path, settings))
      ∧ (metadata_valid root ↔ 0 < tc ∧ 0 < tr)
  | Raise exc => exc = TemplateError ∧ ¬ metadata_valid root
  end.
Proof.
  unfold template_geometry.
  destruct (find_settings root) as [[sp settings]|] eqn:Hs; cbn [mbind result_bind];
    [|split; [done|]; intros (? & ? & ? & ? & ? & ? & ? & ? & ? & _); congruence].
  destruct (find_geometry settings) as [[gp geometry]|] eqn:Hg; cbn [mbind result_bind];
    [|split; [done|];
      intros (? & ? & ? & ? & ? & ? & ? & _)%(metadata_valid_inv _ _ _ Hs); congruence].
  assert (Hinv := metadata_valid_inv_geometry root sp settings gp geometry Hs Hg).
  unfold int_or.
  destruct (dict_get "columns" (attrib geometry)) as [c|] eqn:Hc; cbn [mbind result_bind].
  2:{ split; [done|]. intros Hv.
      apply Hinv in Hv as (? & ? & ? & ? & ? & ? & ? & ? & ?); congruence. }
  destruct (py_int c) as [tc|] eqn:Htc; cbn [mbind result_bind].
  2:{ split; [done|]. intros Hv.
      apply Hinv in Hv as (? & ? & ? & ? & ? & ? & ? & ? & ?); congruence. }
  destruct (dict_get "rows" (attrib geometry)) as [r|] eqn:Hr; cbn [mbind result_bind].
  2:{ split; [done|]. intros Hv.
      apply Hinv in Hv as (? & ? & ? & ? & ? & ? & ? & ? & ?); congruence. }
  destruct (py_int r) as [tr|] eqn:Htr; cbn [mbind result_bind].
  2:{ split; [done|]. intros Hv.
      apply Hinv in Hv as (? & ? & ? & ? & ? & ? & ? & ? & ?); congruence. }
  split; [by eauto|]. split.
  - intros (c' & r' & tc' & tr' & Hc' & Hr' & Htc' & Htr' & ?)%Hinv.
    assert (tc' = tc) as -> by congruence. assert (tr' = tr) as -> by congruence. done.
  - intros [? ?]. by exists sp, settings, gp, geometry, c, r, tc, tr.
Qed.

Lemma scale_attribute_spec element attribute delta :
  match scale_attribute element attribute delta with
  | Ok element' =>
      ∀ v, dict_get attribute (attrib element) = Some v → is_Some (py_int v)
  | Raise exc =>
      exc = TemplateError
      ∧ ∃ v, dict_get attribute (attrib element) = Some v ∧ py_int v = None
  end.
Proof.
  unfold scale_attribute. destruct (dict_get _ _) as [v|]; [|done].
  unfold int_or. destruct (py_int v) as [n|] eqn:Hn; cbn [mbind result_bind].
  - intros ? [= <-]. by rewrite Hn.
  - eauto.
Qed.


Lemma get_children_eq p e e' :
  p ≠ [] → children e = children e' → get p e = get p e'.
Proof. destruct p as [|i p]; [done|]. intros _ Hcs. by rewrite !get_cons, Hcs. Qed.








(** A [viewBox] that is not made of integers does not raise [TemplateError]:
    the [ValueError] of [int] leaves [scale] as it is. *)
Lemma unreadable_viewbox_raises_value_error :
  @resize_template float_viewbox_platform "data/templates/carbon.svg" 100 30 8 17
  = Raise ValueError.
Proof. by vm_compute. Qed.

(* ================================================================== *)
(** * The definition store *)


Lemma dict_get_None {V} k (d : list (string * V)) : dict_get k d = None ↔ k ∉ d.*1.
Proof.
  induction d as [|[k' v] d IH].
  - split; [intros _ ?%elem_of_nil; done|done].
  - rewrite fmap_cons, not_elem_of_cons. cbn [fst dict_get].
    destruct (decide (k' = k)) as [->|Hne].
    + split; [done|]. by intros [? _].
    + rewrite IH. split; [by auto|]. by intros [_ ?].
Qed.

Lemma dict_set_absent {V} k (v : V) d :
  dict_get k d = None → dict_set k v d = d ++ [(k, v)].
Proof.
  induction d as [|[k' v'] d IH]; simpl; [done|].
  destruct (decide (k' = k)); [done|]. intros Hd. by rewrite IH.
Qed.

Lemma dict_get_app {V} k (d1 d2 : list (string * V)) :
  dict_get k (d1 ++ d2)
  = match dict_get k d1 with Some v => Some v | None => dict_get k d2 end.
Proof.
  induction d1 as [|[k' v'] d1 IH]; simpl; [done|].
  by destruct (decide (k' = k)).
Qed.

Lemma dict_update_app defs nd1 nd2 :
  dict_update defs (nd1 ++ nd2) = dict_update (dict_update defs nd1) nd2.
Proof. unfold dict_update. by rewrite foldl_app. Qed.

(** [definitions.update(new_defs)] for new definitions with distinct keys
    that are not yet defined. *)
Lemma dict_update_spec defs (nd : list (string * Element)) :
  NoDup nd.*1 →
  (∀ key, key ∈ nd.*1 → defs !! key = None) →
  size (dict_update defs nd) = (size defs + length nd)%nat
  ∧ ∀ key, dict_update defs nd !! key
           = match dict_get key nd with Some d => Some d | None => defs !! key end.
Proof.
  revert defs. induction nd as [|[k d] nd IH]; intros defs Hnd Hfresh; [done|].
  rewrite fmap_cons in Hnd. cbn [fst] in Hnd.
  apply NoDup_cons in Hnd as [Hk Hnd].
  assert (Hdk : defs !! k = None) by (apply Hfresh; by left).
  destruct (IH (<[k := d]> defs) Hnd) as [Hsize Hlook].
  { intros key Hkey. rewrite lookup_insert_ne; [apply Hfresh; by right|].
    intros ->. done. }
  change (dict_update defs ((k, d) :: nd)) with (dict_update (<[k := d]> defs) nd).
  split.
  - rewrite Hsize, map_size_insert_None by done. simpl. lia.
  - intros key. rewrite Hlook. simpl.
    destruct (decide (k = key)) as [->|Hne].
    + apply dict_get_None in Hk. by rewrite Hk, lookup_insert_eq.
    + rewrite lookup_insert_ne by done. done.
Qed.

Lemma store_ok_empty : store_ok ∅ [] [].
Proof.
  split_and!; try done.
  - constructor.
  - constructor.
Qed.

(** The end of a bucket: the new definitions go to the store. *)
Lemma store_ok_merge defs nd order :
  store_ok defs nd order → store_ok (dict_update defs nd) [] order.
Proof.
  intros (Hnd & Hsize & Hids & Hout & Hnew & Hfresh).
  destruct (dict_update_spec defs nd Hnew Hfresh) as [Hsz Hlook].
  split_and!; try done.
  - rewrite Hsz. simpl. lia.
  - intros k key Hk. destruct (Hids k key Hk) as (d & [Hd|[Hd Hd']] & Hid).
    + exists d. split; [|done]. left. rewrite Hlook.
      destruct (dict_get key nd) as [d'|] eqn:Hd'; [|done].
      assert (key ∈ nd.*1) as Hin%Hfresh; [|congruence].
      apply dec_stable. intros Hn%dict_get_None. congruence.
    + exists d. split; [|done]. left. by rewrite Hlook, Hd'.
  - intros key Hkey. destruct (Hout key Hkey) as [Hd Hd'].
    split; [|done]. by rewrite Hlook, Hd'.
  - constructor.
  - by intros key ?%elem_of_nil.
Qed.

(** "Find or create" on a store: the id of the position of the key in the
    order of allocation, which grows by this key when it is new. *)
Lemma find_or_create_definition_spec defs nd order key text_group_tag :
  store_ok defs nd order →
  ∃ k nd' order',
    find_or_create_definition defs nd key text_group_tag = Ok (definition_id k, nd')
    ∧ store_ok defs nd' order'
    ∧ order' !! k = Some key
    ∧ ((order' = order ∧ nd' = nd)
       ∨ (order' = order ++ [key]
          ∧ nd' = nd ++ [(key, set_attrib "id" (definition_id (length order))
                                 text_group_tag)])).
Proof.
  intros (Hnd & Hsize & Hids & Hout & Hnew & Hfresh).
  unfold find_or_create_definition.
  destruct (decide (key ∈ order)) as [Hin|Hnin].
  - apply list_elem_of_lookup in Hin as [k Hk].
    destruct (Hids k key Hk) as (d & Hd & Hid).
    exists k, nd, order. split; [|split_and!; by eauto].
    destruct Hd as [->|[-> ->]]; by rewrite Hid.
  - destruct (Hout key Hnin) as [Hd Hd']. rewrite Hd, Hd'.
    exists (length order), (nd ++ [(key, set_attrib "id" (definition_id (length order))
                                          text_group_tag)]), (order ++ [key]).
    split_and!.
    + rewrite (dict_set_absent _ _ _ Hd'). unfold definition_id.
      repeat f_equal; lia.
    + split_and!.
      * apply NoDup_app. split_and!; [done| |apply NoDup_singleton].
        intros x Hx ->%list_elem_of_singleton. done.
      * rewrite !length_app. simpl. lia.
      * intros k key' Hk. apply lookup_app_Some in Hk as [Hk|[Hge Hk]].
        -- destruct (Hids k key' Hk) as (d & [Hdd|[Hdd Hdd']] & Hid).
           ++ exists d. split; [by left|done].
           ++ exists d. split; [|done]. right. split; [done|].
              by rewrite dict_get_app, Hdd'.
        -- apply list_lookup_singleton_Some in Hk as [Hk <-].
           assert (k = length order) as -> by lia.
           eexists. split; [right; split; [done|]|].
           ++ rewrite dict_get_app, Hd'. simpl. by rewrite decide_True.
           ++ simpl. by rewrite dict_get_set_eq.
      * intros key' Hkey'. rewrite not_elem_of_app in Hkey'.
        destruct Hkey' as [Hk1 Hk2%not_elem_of_cons].
        destruct (Hout key' Hk1) as [Hdd Hdd']. split; [done|].
        rewrite dict_get_app, Hdd'. simpl. rewrite decide_False; [done|].
        intros ->. by destruct Hk2.
      * rewrite fmap_app. apply NoDup_app. split_and!; [done| |apply NoDup_singleton].
        intros x Hx ->%list_elem_of_singleton. by apply dict_get_None in Hd'.
      * intros key'. rewrite fmap_app, elem_of_app.
        intros [Hk|Hk]; [by apply Hfresh|].
        by apply list_elem_of_singleton in Hk as ->.
    + by rewrite lookup_app_r, Nat.sub_diag.
    + by right.
Qed.

(* ================================================================== *)
(** * The animation composer *)

Lemma render_characters_Ok screen_line cell_width :
  ∃ text_tags,
    _render_characters screen_line cell_width = Ok text_tags
    ∧ Forall (λ c, tag c = "text" ∧ children c = []) text_tags.
Proof.
  unfold _render_characters.
  rewrite text_tags_runs by apply sorted_items_increasing.
  eexists. split; [done|]. apply Forall_fmap, Forall_true. done.
Qed.

Lemma render_line_bg_colors_Ok screen_line height cell_height cell_width default_bg_color :
  ∃ rect_tags,
    _render_line_bg_colors screen_line height cell_height cell_width default_bg_color
    = Ok rect_tags
    ∧ Forall (λ c, tag c = "rect" ∧ children c = []) rect_tags.
Proof.
  unfold _render_line_bg_colors.
  rewrite rect_tags_runs by apply increasing_filter, sorted_items_increasing.
  eexists. split; [done|]. apply Forall_fmap, Forall_true. done.
Qed.

Lemma use_ref_make_use_tag group_id y :
  use_ref (make_use_tag group_id y) = Some ("#" +:+ group_id).
Proof. reflexivity. Qed.

Lemma omap_use_ref_rects rects :
  Forall (λ c, tag c = "rect" ∧ children c = []) rects → omap use_ref rects = [].
Proof.
  induction 1 as [|c rects [Hc _] _ IH]; [done|]. simpl.
  unfold use_ref at 1. rewrite Hc. by rewrite decide_False.
Qed.

Section Composer.
Context `{Platform}.
Variables (cell_height cell_width : Z) (default_bg_color : string).

(** One line event: its rectangles, then a reference to the definition of
    its text, which is found or created. *)
Lemma render_event_spec defs cs nd order event_record :
  store_ok defs nd order →
  ∃ k rects nd' order',
    render_event cell_height cell_width default_bg_color defs (cs, nd) event_record
    = Ok (cs ++ rects ++ [make_use_tag (definition_id k)
                            (row event_record * cell_height)], nd')
    ∧ Forall (λ c, tag c = "rect" ∧ children c = []) rects
    ∧ store_ok defs nd' order'
    ∧ order' !! k = Some (serialized_fragment cell_width event_record)
    ∧ ((order' = order ∧ nd' = nd)
       ∨ (∃ d, order' = order ++ [serialized_fragment cell_width event_record]
               ∧ nd' = nd ++ [(serialized_fragment cell_width event_record, d)]
               ∧ is_definition d
               ∧ dict_get "id" (attrib d) = Some (definition_id (length order)))).
Proof.
  intros Hstore. unfold render_event, serialized_fragment.
  destruct (render_line_bg_colors_Ok (line event_record) (row event_record * cell_height)
              cell_height cell_width default_bg_color) as (rects & -> & Hrects).
  destruct (render_characters_Ok (line event_record) cell_width) as (tags & -> & Htags).
  cbn [mbind result_bind].
  destruct (find_or_create_definition_spec defs nd order
              (tostring (mkElement "g" [] NoText tags)) (mkElement "g" [] NoText tags)
              Hstore) as (k & nd' & order' & -> & Hstore' & Hk & Hcase).
  cbn [mbind result_bind].
  exists k, rects, nd', order'. split_and!; try done.
  - destruct Hcase as [?|[-> ->]]; [by left|right].
    eexists. split_and!; [done|done| |].
    + split; [done|]. done.
    + unfold set_attrib. cbn [attrib]. apply dict_get_set_eq.
Qed.


Lemma definition_ids_snoc ds d :
  definition_ids (ds ++ [d]) = definition_ids ds ++ [dict_get "id" (attrib d)].
Proof. unfold definition_ids. by rewrite fmap_app. Qed.

Lemma seq_ids_snoc (a n : nat) :
  (λ k, Some (definition_id k)) <$> seq a (S n)
  = ((λ k, Some (definition_id k)) <$> seq a n) ++ [Some (definition_id (a + n))].
Proof. by rewrite seq_S, fmap_app. Qed.

(** The line events of a bucket, one after the other. *)
Lemma bucket_events_spec defs events :
  ∀ cs nd order,
    store_ok defs nd order →
    Forall is_definition nd.*2 →
    definition_ids nd.*2 = (λ k, Some (definition_id k)) <$> seq (size defs) (length nd) →
    ∃ cs_new nd' order' ks,
      foldlM (render_event cell_height cell_width default_bg_color defs) (cs, nd) events
      = Ok (cs ++ cs_new, nd')
      ∧ store_ok defs nd' order'
      ∧ Forall is_definition nd'.*2
      ∧ definition_ids nd'.*2
        = (λ k, Some (definition_id k)) <$> seq (size defs) (length nd')
      ∧ order `prefix_of` order'
      ∧ Forall plain_child cs_new
      ∧ omap use_ref cs_new = reference_to <$> ks
      ∧ Forall2 (λ ev k, order' !! k = Some (serialized_fragment cell_width ev)) events ks.
Proof.
  induction events as [|ev events IH]; intros cs nd order Hstore Hdefs Hids.
  { exists [], nd, order, []. rewrite app_nil_r. by split_and!. }
  destruct (render_event_spec defs cs nd order ev Hstore)
    as (k & rects & nd1 & order1 & Hev & Hrects & Hstore1 & Hk & Hcase).
  assert (Hdefs1 : Forall is_definition nd1.*2
                   ∧ definition_ids nd1.*2
                     = (λ k, Some (definition_id k)) <$> seq (size defs) (length nd1)
                   ∧ order `prefix_of` order1).
  { destruct Hcase as [[-> ->]|(d & -> & -> & Hd & Hid)]; [done|].
    rewrite fmap_app, length_app, Nat.add_1_r.
    change ([(serialized_fragment cell_width ev, d)].*2) with [d]. split_and!.
    - apply Forall_app. split; [done|]. by constructor.
    - rewrite definition_ids_snoc, seq_ids_snoc, Hids, Hid. repeat f_equal.
      destruct Hstore as (_ & <- & _). done.
    - by apply prefix_app_r. }
  destruct Hdefs1 as (Hdefs1 & Hids1 & Hpre1).
  destruct (IH (cs ++ rects ++ [make_use_tag (definition_id k) (row ev * cell_height)])
              nd1 order1 Hstore1 Hdefs1 Hids1)
    as (cs_new & nd' & order' & ks & Hfold & Hstore' & Hdefs' & Hids' & Hpre' & Hplain
        & Hrefs & Hkeys).
  exists (rects ++ [make_use_tag (definition_id k) (row ev * cell_height)] ++ cs_new),
    nd', order', (k :: ks).
  split_and!; try done.
  - cbn [foldlM]. rewrite Hev. cbn [mbind result_bind]. rewrite Hfold.
    by rewrite <- !app_assoc.
  - by etrans.
  - apply Forall_app. split.
    + apply (Forall_impl _ _ _ Hrects). intros c [Hc ?]. split; [by left|done].
    + constructor; [|done]. split; [by right|done].
  - rewrite omap_app, (omap_use_ref_rects rects Hrects).
    rewrite (omap_app _ [_] cs_new), Hrefs. done.
  - constructor; [|done]. by apply (prefix_lookup_Some order1).
Qed.

Lemma group_refs_group cs animation :
  tag animation = "animate" →
  group_refs (mkElement "g" [("display", "none")] NoText (cs ++ [animation]))
  = omap use_ref cs.
Proof.
  intros Ha. unfold group_refs. cbn [children]. rewrite omap_app. simpl.
  unfold use_ref at 2. rewrite Ha, decide_False by done. by rewrite app_nil_r.
Qed.

(** A bucket: its visibility group and its new definitions. *)
Lemma make_animated_group_spec defs order records time duration :
  store_ok defs [] order →
  ∃ g nd order' ks,
    make_animated_group records time duration cell_height cell_width default_bg_color defs
    = Ok (g, nd)
    ∧ group_of_bucket g ((time, duration), records)
    ∧ group_refs g = reference_to <$> ks
    ∧ Forall2 (λ ev k, order' !! k = Some (serialized_fragment cell_width ev)) records ks
    ∧ store_ok defs nd order'
    ∧ order `prefix_of` order'
    ∧ Forall is_definition nd.*2
    ∧ definition_ids nd.*2
      = (λ k, Some (definition_id k)) <$> seq (size defs) (length nd).
Proof.
  intros Hstore.
  destruct (bucket_events_spec defs records [] [] order Hstore)
    as (cs & nd & order' & ks & Hfold & Hstore' & Hdefs & Hids & Hpre & Hplain & Hrefs
        & Hkeys); [constructor|done|].
  unfold make_animated_group. rewrite Hfold. cbn [mbind result_bind app].
  eexists _, nd, order', ks. split_and!; try done.
  - by exists cs.
  - by rewrite group_refs_group.
Qed.

End Composer.

Lemma group_keyed_join {X Ky} `{EqDecision Ky} (l : list (Ky * X)) :
  mjoin (group_keyed l).*2 = l.*2.
Proof.
  induction l as [|[k x] l IH]; [done|]. simpl.
  destruct (group_keyed l) as [|[k' g] rest]; simpl in *.
  - by f_equal.
  - destruct (decide (k = k')); simpl; by f_equal.
Qed.

(** The buckets of [groupby] hold the events, in order. *)
Lemma groupby_join {X Ky} `{EqDecision Ky} (key : X → Ky) (l : list X) :
  mjoin (groupby key l).*2 = l.
Proof.
  unfold groupby. rewrite group_keyed_join, <- list_fmap_compose.
  rewrite <- (list_fmap_id l) at 2. by apply list_fmap_ext.
Qed.

Lemma group_keyed_nil_inv {X Ky} `{EqDecision Ky} (l : list (Ky * X)) :
  group_keyed l = [] → l = [].
Proof.
  destruct l as [|[k x] l]; [done|]. simpl.
  destruct (group_keyed l) as [|[k' g] rest]; [done|]. by destruct (decide _).
Qed.


Section Loop.
Context `{Platform}.
Variables (cell_height cell_width : Z) (default_bg_color : string) (style_tag : Element).

Lemma seq_ids_app (a n m : nat) :
  (λ k, Some (definition_id k)) <$> seq a (n + m)
  = ((λ k, Some (definition_id k)) <$> seq a n)
      ++ ((λ k, Some (definition_id k)) <$> seq (a + n) m).
Proof. by rewrite seq_app, fmap_app. Qed.

(** One bucket of the loop. *)
Lemma render_bucket_spec st order bucket :
  store_ok (definitions st) [] order →
  def_children_ok style_tag st →
  ∃ st' order' ks g,
    render_bucket cell_height cell_width default_bg_color st bucket = Ok st'
    ∧ store_ok (definitions st') [] order'
    ∧ def_children_ok style_tag st'
    ∧ order `prefix_of` order'
    ∧ animated_groups st' = animated_groups st ++ [g]
    ∧ group_of_bucket g bucket
    ∧ group_refs g = reference_to <$> ks
    ∧ Forall2 (λ ev k, order' !! k = Some (serialized_fragment cell_width ev)) bucket.2 ks
    ∧ animation_duration st' = Some (bucket.1.1 + bucket.1.2).
Proof.
  intros Hstore (ds & Hds & Hdefs & Hids).
  destruct bucket as [[line_time line_duration] record_group].
  destruct (make_animated_group_spec cell_height cell_width default_bg_color
              (definitions st) order record_group line_time line_duration Hstore)
    as (g & nd & order' & ks & Hg & Hgroup & Hrefs & Hkeys & Hstore' & Hpre & Hnd & Hndids).
  unfold render_bucket. rewrite Hg. cbn [mbind result_bind].
  eexists _, order', ks, g. split_and!; try done.
  - by apply store_ok_merge.
  - exists (ds ++ nd.*2). cbn [def_children definitions]. split_and!.
    + by rewrite Hds.
    + by apply Forall_app.
    + destruct Hstore' as (_ & _ & _ & _ & Hnew & Hfresh).
      destruct (dict_update_spec (definitions st) nd Hnew Hfresh) as [-> _].
      unfold definition_ids in *. rewrite fmap_app, seq_ids_app, Hids, Hndids. done.
Qed.

(** The loop over the buckets. *)
Lemma render_loop_spec buckets :
  ∀ st order,
    store_ok (definitions st) [] order →
    def_children_ok style_tag st →
    ∃ st' order' ks groups,
      foldlM (render_bucket cell_height cell_width default_bg_color) st buckets = Ok st'
      ∧ store_ok (definitions st') [] order'
      ∧ def_children_ok style_tag st'
      ∧ order `prefix_of` order'
      ∧ animated_groups st' = animated_groups st ++ groups
      ∧ Forall2 group_of_bucket groups buckets
      ∧ mjoin (group_refs <$> groups) = reference_to <$> ks
      ∧ Forall2 (λ ev k, order' !! k = Some (serialized_fragment cell_width ev))
                (mjoin buckets.*2) ks
      ∧ animation_duration st'
        = match last buckets with
          | Some b => Some (b.1.1 + b.1.2)
          | None => animation_duration st
          end.
Proof.
  induction buckets as [|bucket buckets IH]; intros st order Hstore Hdefs.
  { exists st, order, [], []. rewrite app_nil_r. by split_and!. }
  destruct (render_bucket_spec st order bucket Hstore Hdefs)
    as (st1 & order1 & ks1 & g & Hb & Hstore1 & Hdefs1 & Hpre1 & Hgroups1 & Hg & Hrefs1
        & Hkeys1 & Hdur1).
  destruct (IH st1 order1 Hstore1 Hdefs1)
    as (st' & order' & ks & groups & Hfold & Hstore' & Hdefs' & Hpre' & Hgroups' & Hgs
        & Hrefs & Hkeys & Hdur).
  exists st', order', (ks1 ++ ks), (g :: groups). split_and!; try done.
  - cbn [foldlM]. rewrite Hb. cbn [mbind result_bind]. done.
  - by etrans.
  - rewrite Hgroups', Hgroups1, <- app_assoc. done.
  - by constructor.
  - rewrite fmap_cons, fmap_app, <- Hrefs1, <- Hrefs. done.
  - rewrite fmap_cons.
    change (mjoin (bucket.2 :: buckets.*2)) with (bucket.2 ++ mjoin buckets.*2).
    apply Forall2_app; [|done].
    apply (Forall2_impl _ _ _ _ Hkeys1). intros ev k Hk.
    by apply (prefix_lookup_Some order1).
  - rewrite Hdur, Hdur1. destruct buckets as [|b buckets]; [done|].
    rewrite last_cons_cons. destruct (last (b :: buckets)) eqn:Hl; [done|].
    by apply last_None in Hl.
Qed.

(** The whole loop, from the empty store. *)
Lemma render_buckets_spec events :
  ∃ st order ks,
    render_buckets cell_height cell_width default_bg_color style_tag events = Ok st
    ∧ store_ok (definitions st) [] order
    ∧ def_children_ok style_tag st
    ∧ Forall2 group_of_bucket (animated_groups st) (groupby by_time events)
    ∧ mjoin (group_refs <$> animated_groups st) = reference_to <$> ks
    ∧ Forall2 (λ ev k, order !! k = Some (serialized_fragment cell_width ev)) events ks
    ∧ animation_duration st
      = match last (groupby by_time events) with
        | Some b => Some (b.1.1 + b.1.2)
        | None => None
        end.
Proof.
  destruct (render_loop_spec (groupby by_time events)
              (mkRenderState ∅ [style_tag] [] None) [])
    as (st & order & ks & groups & Hfold & Hstore & Hdefs & _ & Hgroups & Hgs & Hrefs
        & Hkeys & Hdur).
  { apply store_ok_empty. }
  { exists []. by split_and!. }
  exists st, order, ks. cbn [animated_groups app] in Hgroups.
  rewrite groupby_join in Hkeys. rewrite Hgroups. by split_and!.
Qed.

End Loop.



(* ================================================================== *)
(** * The loop anchor *)










(** The [animate] children of a visibility group: its last child alone. *)
Lemma filter_imap_plain (Q : path * Element → Prop) `{∀ x, Decision (Q x)}
    (g : nat → Element → path * Element) cs :
  (∀ i c, plain_child c → ¬ Q (g i c)) →
  Forall plain_child cs →
  filter Q (imap g cs) = [].
Proof.
  intros HQ Hcs. revert g HQ. induction Hcs as [|c cs Hc _ IH]; intros g HQ; [done|].
  cbn [imap]. rewrite filter_cons_False by by apply HQ.
  apply IH. intros i c'. apply HQ.
Qed.

Lemma findall_animate_group attrs cs animation :
  Forall plain_child cs →
  tag animation = "animate" →
  findall_children "animate" (λ _, true) (mkElement "g" attrs NoText (cs ++ [animation]))
  = [([length cs], animation)].
Proof.
  intros Hcs Ha. unfold findall_children, iterchildren. cbn [children].
  rewrite imap_app, filter_app, filter_imap_plain; [| |done].
  - cbn [imap app]. rewrite filter_cons_True.
    + by rewrite Nat.add_0_r.
    + simpl. unfold has_tag. by rewrite bool_decide_eq_true_2.
  - intros i c [Hc _]. simpl. unfold has_tag.
    rewrite bool_decide_eq_false_2; [by intros []|]. by destruct Hc as [-> | ->].
Qed.

(** The post-pass on a list of groups that is not empty. *)
Lemma tag_last_animation_spec groups buckets :
  Forall2 group_of_bucket groups buckets →
  groups ≠ [] →
  ∃ init cs b,
    last buckets = Some b
    ∧ groups = init ++ [mkElement "g" [("display", "none")] NoText
                          (cs ++ [make_animate_tag b.1.1 b.1.2])]
    ∧ Forall plain_child cs
    ∧ tag_last_animation groups
      = Ok (init ++ [mkElement "g" [("display", "none")] NoText
                       (cs ++ [set_attrib "id" LAST_ANIMATION_ID
                                 (make_animate_tag b.1.1 b.1.2)])]).
Proof.
  intros Hgs Hne.
  destruct (last groups) as [g|] eqn:Hlast; [|by apply last_None in Hlast].
  apply last_Some in Hlast as [init ->].
  apply Forall2_app_inv_l in Hgs as (binit & blast & Hinit & Hlast & ->).
  apply Forall2_cons_inv_l in Hlast as (b & bnil & (cs & -> & Hcs) & ->%Forall2_nil_inv_l & ->).
  exists init, cs, b. split_and!; [by rewrite last_snoc|done|done|].
  unfold tag_last_animation. rewrite last_snoc.
  rewrite (findall_animate_group _ cs _ Hcs) by done.
  rewrite length_app. cbn [length]. rewrite Nat.add_1_r. cbn [pred].
  f_equal. rewrite <- (Nat.add_0_r (length init)) at 1.
  rewrite insert_app_r. cbn [insert list_insert]. f_equal. f_equal.
  rewrite update_cons. cbn [children update]. unfold set_children. cbn [tag attrib elem_text].
  f_equal. rewrite <- (Nat.add_0_r (length cs)).
  by rewrite alter_app_r.
Qed.

Lemma tag_last_animation_nil : tag_last_animation [] = Ok [].
Proof. reflexivity. Qed.



Lemma count_where_fields P e e' :
  tag e' = tag e → children e' = children e →
  P (tag e) (attrib e') = P (tag e) (attrib e) →
  count_where P e' = count_where P e.
Proof. intros Ht Hcs HP. by rewrite !count_where_unfold, Ht, Hcs, HP. Qed.


(** What a successful render has gone through. *)
Lemma render_animation_inv `{Platform} records font font_size cell_width cell_height doc :
  _render_animation records font font_size cell_width cell_height = Ok doc →
  ∃ header events root screen_path screen st groups style_path style,
    records = Config header :: (LineEvent <$> events)
    ∧ resize_template "data/templates/carbon.svg" (cfg_width header) (cfg_height header)
        cell_width cell_height = Ok root
    ∧ find_screen root = Some (screen_path, screen)
    ∧ render_buckets cell_height cell_width (cfg_background_color header)
        (build_style_tag font font_size (cfg_background_color header)) events = Ok st
    ∧ tag_last_animation (animated_groups st) = Ok groups
    ∧ find_generated_style
        (update screen_path
           (set_children ([mkElement "defs" [] NoText (def_children st); BG_RECT_TAG]
                            ++ groups)) root)
      = Some (style_path, style)
    ∧ doc
      = update style_path
          (set_text (CDATA (_serialize_css_dict
             [(":root", [("--foreground-color", cfg_text_color header);
                         ("--background-color", cfg_background_color header);
                         ("--animation-duration",
                          py_format_opt (animation_duration st) +:+ "ms")])])))
          (update screen_path
             (set_children ([mkElement "defs" [] NoText (def_children st); BG_RECT_TAG]
                              ++ groups)) root).
Proof.
  unfold _render_animation.
  destruct records as [|[header|?] records]; [done| |done]. cbn [mbind result_bind].
  destruct (resize_template _ _ _ _ _) as [root|] eqn:Hroot; [|done].
  cbn [mbind result_bind].
  destruct (find_screen root) as [[sp screen]|] eqn:Hscreen; [|done].
  cbn [mbind result_bind].
  destruct (render_buckets _ _ _ _ _) as [st|] eqn:Hst; [|done]. cbn [mbind result_bind].
  destruct (decide (length (leading_events records) ≠ length records)) as [|Hlen]; [done|].
  destruct (tag_last_animation _) as [groups|] eqn:Hgroups; [|done].
  cbn [mbind result_bind]. unfold add_css_variables.
  destruct (find_generated_style _) as [[stp style]|] eqn:Hstyle; [|done].
  intros [= <-].
  exists header, (leading_events records), root, sp, screen, st, groups, stp, style.
  split_and!; try done. f_equal.
  apply dec_stable in Hlen. clear -Hlen.
  induction records as [|[c|e] records IH]; simpl in *; [done|lia|].
  f_equal. apply IH. lia.
Qed.











Lemma css_variables_string `{Platform} fg bg d :
  _serialize_css_dict
    [(":root", [("--foreground-color", fg); ("--background-color", bg);
                ("--animation-duration", d +:+ "ms")])]
  = ":root {--foreground-color: " +:+ fg +:+ "; --background-color: " +:+ bg
    +:+ "; --animation-duration: " +:+ d +:+ "ms}".
Proof.
  unfold _serialize_css_dict, serialize_css_item. cbn [fmap list_fmap join].
  rewrite !append_assoc. reflexivity.
Qed.



Lemma toggle_directive_triggers_witness :
  ∃ g new_definitions,
    @make_animated_group example_platform [mkCharacterCellLineEvent 0 gap_line 100 50]
      100 50 17 8 "black" ∅ = Ok (g, new_definitions)
    ∧ ∃ group_children animation begin,
        children g = group_children ++ [animation]
        ∧ tag animation = "animate"
        ∧ dict_get "begin" (attrib animation) = Some begin
        ∧ begin_triggers begin = ["100ms"; "anim_last.end+100ms"].
Proof.
  eexists _, _. split; [by vm_compute|].
  eapply (@toggle_directive_triggers example_platform
            [mkCharacterCellLineEvent 0 gap_line 100 50] 100 50 17 8 "black" ∅);
    [lia|by vm_compute].
Defined.





(* ================================================================== *)
(** * More on the colour resolver *)

Lemma index_of_elem_of name names i n :
  index_of name names i = Some n → name ∈ names.
Proof.
  revert i. induction names as [|x names IH]; intros i; simpl; [done|].
  destruct (decide (x = name)) as [->|_]; [intros _; left|].
  intros Hn. right. by apply (IH (i + 1)).
Qed.

Lemma index_of_range name names i n :
  index_of name names i = Some n → i ≤ n < i + Z.of_nat (length names).
Proof.
  revert i. induction names as [|x names IH]; intros i; simpl; [done|].
  destruct (decide (x = name)) as [->|_]; [intros [= <-]; lia|].
  intros Hn%IH. lia.
Qed.

Lemma index_of_not_elem_of name names i :
  name ∉ names → index_of name names i = None.
Proof.
  intros Hn. destruct (index_of name names i) eqn:Hi; [|done].
  by apply index_of_elem_of in Hi.
Qed.

Lemma all_colors_cases name :
  name ∈ ALL_COLORS →
  name ∈ _COLORS ∨ ∃ base, base ∈ _COLORS ∧ name = "bright" +:+ base.
Proof.
  unfold ALL_COLORS, _BRIGHTCOLORS. rewrite elem_of_app, list_elem_of_fmap.
  intros [Hn|(base & -> & Hbase)]; [by left|right; eauto].
Qed.

Lemma bright_cons s :
  "bright" +:+ s = String "b" (String "r" (String "i" (String "g" (String "h" (String "t" s))))).
Proof. reflexivity. Qed.

Lemma base_color_cases name :
  name ∈ _COLORS →
  name = "black" ∨ name = "red" ∨ name = "green" ∨ name = "brown"
  ∨ name = "blue" ∨ name = "magenta" ∨ name = "cyan" ∨ name = "white".
Proof.
  unfold _COLORS. intros H.
  repeat (apply elem_of_cons in H as [H|H]; [tauto|]). by apply elem_of_nil in H.
Qed.

Lemma base_color_not_bright name :
  name ∈ _COLORS → startswith "bright" name = false ∧ name ≠ "default".
Proof.
  intros Hn%base_color_cases. by destruct_or!; subst.
Qed.

Lemma bright_startswith s : startswith "bright" ("bright" +:+ s) = true.
Proof. unfold startswith. rewrite bright_cons. by destruct s. Qed.

Lemma color_numbers_bright s n :
  color_numbers ("bright" +:+ s) = Some n → s ∈ _COLORS.
Proof.
  intros Hn. apply index_of_elem_of, all_colors_cases in Hn as [Hs|(base & Hbase & Heq)].
  - apply base_color_not_bright in Hs as [Hs _]. by rewrite bright_startswith in Hs.
  - rewrite !bright_cons in Heq. by simplify_eq.
Qed.

Lemma color_numbers_plain s n :
  color_numbers s = Some n → s ∈ _COLORS ∨ startswith "bright" s = true.
Proof.
  intros Hn. apply index_of_elem_of, all_colors_cases in Hn as [Hs|(base & Hbase & ->)].
  - by left.
  - right. apply bright_startswith.
Qed.

Lemma color_numbers_length s n :
  color_numbers s = Some n → String.length s ≠ 6%nat.
Proof.
  intros Hn. apply index_of_elem_of, all_colors_cases in Hn as [Hs|(base & Hbase & ->)].
  - apply base_color_cases in Hs. by destruct_or!; subst.
  - apply base_color_cases in Hbase. by destruct_or!; subst.
Qed.

(** Bold changes the search only for a name that is not bright already; the
    promoted name is a colour only for the eight base names. *)
Lemma resolve_text_color_bold data fg bg rev palette :
  fg ∉ _COLORS →
  resolve_text_color (mkChar data fg bg true rev) palette
  = resolve_text_color (mkChar data fg bg false rev) palette.
Proof.
  intros Hfg. unfold resolve_text_color. simpl.
  destruct (decide (fg = "default")) as [|_]; [done|].
  destruct (startswith "bright" fg) eqn:Hb; simpl; [done|].
  destruct (color_numbers ("bright" +:+ fg)) as [n|] eqn:Hn.
  { by apply color_numbers_bright in Hn. }
  destruct (color_numbers fg) as [n|] eqn:Hn'; [|done].
  apply color_numbers_plain in Hn' as [?|Hb']; [done|congruence].
Qed.

(** X1. Bold has an effect on the colours of a cell only when the text colour
    is one of the eight base names: for any other descriptor (the default, a
    bright name, a hexadecimal colour, an invalid one) the bold cell resolves
    as the plain one does, failures included. *)
Theorem bold_changes_base_names_only (data fg bg : string) (rev : bool)
    (palette : gmap PKey string) :
  fg ∉ _COLORS →
  from_pyte (mkChar data fg bg true rev) palette
  = (λ cell, mkCharacterCell (text cell) (color cell) (background_color cell) true)
      <$> from_pyte (mkChar data fg bg false rev) palette.
Proof.
  intros Hfg. unfold from_pyte.
  rewrite (resolve_text_color_bold data fg bg rev palette Hfg).
  destruct (resolve_text_color _ palette) as [tc|e]; [|done].
  change (resolve_background_color (mkChar data fg bg true rev) palette)
    with (resolve_background_color (mkChar data fg bg false rev) palette).
  destruct (resolve_background_color _ palette) as [bc|e]; [|done].
  by destruct rev.
Qed.

Lemma bold_changes_base_names_only_witness :
  from_pyte (mkChar "x" "brightred" "blue" true false) palette16
  = Ok (mkCharacterCell "x" "#brightred" "#blue" true).
Proof.
  rewrite (bold_changes_base_names_only "x" "brightred" "blue" false palette16).
  - reflexivity.
  - intros H%base_color_cases. by destruct_or!.
Defined.

Lemma drop_underscores_plain prev c s :
  all_chars (λ c, negb (Ascii.eqb c "_")) (String c s) = true →
  drop_underscores prev (String c s) = Some (String c s).
Proof.
  revert prev c. induction s as [|c' s IH]; intros prev c; simpl.
  - rewrite andb_true_r. intros Hc%negb_true_iff. by rewrite Hc.
  - intros [Hc%negb_true_iff Hs]%andb_true_iff. rewrite Hc.
    change (String c <$> drop_underscores true (String c' s) = Some (String c (String c' s))).
    by rewrite (IH true c' Hs).
Qed.

Lemma is_hexdigit_plain c :
  is_hexdigit c = true →
  isspace c = false ∧ Ascii.eqb c "_" = false ∧ Ascii.eqb c "+" = false
  ∧ Ascii.eqb c "-" = false ∧ Ascii.eqb c "x" = false ∧ Ascii.eqb c "X" = false.
Proof.
  unfold is_hexdigit, isspace. intros Hc%bool_decide_eq_true.
  assert (Hn : (nat_of_ascii c < 256)%nat) by apply nat_ascii_bounded.
  rewrite <- (ascii_nat_embedding c).
  destruct (nat_of_ascii c) as [|n]; [lia|].
  do 102 (destruct n as [|n]; [try lia; by vm_compute|]). lia.
Qed.

Lemma hexdigits_int16_ok s :
  s ≠ "" → all_chars is_hexdigit s = true → py_int16_ok s = true.
Proof.
  intros Hne Hs.
  assert (Hsp : all_chars (λ c, negb (isspace c)) s = true).
  { eapply all_chars_impl; [|exact Hs]. intros c Hc%is_hexdigit_plain.
    destruct Hc as [-> _]. done. }
  assert (Hus : all_chars (λ c, negb (Ascii.eqb c "_")) s = true).
  { eapply all_chars_impl; [|exact Hs]. intros c Hc%is_hexdigit_plain.
    destruct Hc as (_ & -> & _). done. }
  unfold py_int16_ok. rewrite (strip_no_space s Hsp).
  destruct s as [|c t]; [done|].
  pose proof Hs as Hs'. simpl in Hs'. apply andb_true_iff in Hs' as [Hc Ht].
  destruct (is_hexdigit_plain c Hc) as (_ & _ & -> & -> & _). simpl.
  assert (Hd : match drop_underscores false (String c t) with
               | Some (String c0 r) => all_chars is_hexdigit (String c0 r)
               | _ => false
               end = true).
  { by rewrite (drop_underscores_plain false c t Hus). }
  destruct t as [|c1 r]; [exact Hd|].
  simpl in Ht. apply andb_true_iff in Ht as [Hc1 _].
  destruct (is_hexdigit_plain c1 Hc1) as (_ & _ & _ & _ & -> & ->).
  rewrite andb_false_r. exact Hd.
Qed.

Lemma hex_descriptor_text data fg bg b rev palette :
  String.length fg = 6%nat → all_chars is_hexdigit fg = true →
  resolve_text_color (mkChar data fg bg b rev) palette = Ok ("#" +:+ fg).
Proof.
  intros Hlen Hhex. unfold resolve_text_color. simpl.
  destruct (decide (fg = "default")) as [->|_]; [done|].
  assert (Hne : fg ≠ "") by (by intros ->).
  assert (Hfg : color_numbers fg = None).
  { destruct (color_numbers fg) eqn:Hn; [|done]. by apply color_numbers_length in Hn. }
  assert (Hsearch : color_numbers (if b && negb (startswith "bright" fg)
                                   then "bright" +:+ fg else fg) = None).
  { destruct (b && negb (startswith "bright" fg)); [|done].
    destruct (color_numbers ("bright" +:+ fg)) eqn:Hn; [|done].
    apply color_numbers_bright, base_color_cases in Hn. by destruct_or!; subst. }
  rewrite Hsearch. rewrite decide_True by done.
  unfold hex_color. by rewrite hexdigits_int16_ok.
Qed.

Lemma hex_descriptor_background data fg bg b rev palette :
  String.length bg = 6%nat → all_chars is_hexdigit bg = true →
  resolve_background_color (mkChar data fg bg b rev) palette = Ok ("#" +:+ bg).
Proof.
  intros Hlen Hhex. unfold resolve_background_color. simpl.
  destruct (decide (bg = "default")) as [->|_]; [done|].
  assert (Hne : bg ≠ "") by (by intros ->).
  destruct (color_numbers bg) eqn:Hn; [by apply color_numbers_length in Hn|].
  rewrite decide_True by done.
  unfold hex_color. by rewrite hexdigits_int16_ok.
Qed.

(** X2. A cell whose two descriptors are six hexadecimal digits resolves to
    these digits after a [#], whatever the palette (an empty one included)
    and the bold flag. *)
Theorem hex_descriptors_resolve_as_written (data fg bg : string) (b rev : bool)
    (palette : gmap PKey string) :
  String.length fg = 6%nat → all_chars is_hexdigit fg = true →
  String.length bg = 6%nat → all_chars is_hexdigit bg = true →
  from_pyte (mkChar data fg bg b rev) palette
  = Ok (if rev then mkCharacterCell data ("#" +:+ bg) ("#" +:+ fg) b
        else mkCharacterCell data ("#" +:+ fg) ("#" +:+ bg) b).
Proof.
  intros Hfl Hfh Hbl Hbh. unfold from_pyte.
  rewrite (hex_descriptor_text data fg bg b rev palette Hfl Hfh).
  rewrite (hex_descriptor_background data fg bg b rev palette Hbl Hbh).
  by destruct rev.
Qed.

Lemma hex_descriptors_resolve_as_written_witness :
  from_pyte (mkChar "x" "ff00aa" "0B0b0C" true true) ∅
  = Ok (mkCharacterCell "x" "#0B0b0C" "#ff00aa" true).
Proof.
  by rewrite (hex_descriptors_resolve_as_written "x" "ff00aa" "0B0b0C" true true ∅).
Defined.






(** X4. The background colour has no fallback: on a palette without the
    entry of a bright name, a cell with this name as its background raises
    [KeyError], where the same name as a text colour falls back on the base
    index. *)
Theorem bright_background_needs_its_entry (data fg base : string) (b rev : bool)
    (palette : gmap PKey string) (i : nat) (text_color : string) :
  _COLORS !! i = Some base →
  palette !! KInt (Z.of_nat i + 8) = None →
  resolve_text_color (mkChar data fg ("bright" +:+ base) b rev) palette = Ok text_color →
  from_pyte (mkChar data fg ("bright" +:+ base) b rev) palette = Raise KeyError.
Proof.
  intros Hi Hnone Htext. unfold from_pyte. rewrite Htext.
  destruct (bright_promotion i base Hi) as (_ & Hbright & _).
  rewrite (resolve_background_color_named _ _ _ _ _ _ _ Hbright).
  by rewrite Hnone.
Qed.

Lemma bright_background_needs_its_entry_witness :
  from_pyte (mkChar "x" "brightred" "brightred" false false) palette8 = Raise KeyError.
Proof.
  apply (bright_background_needs_its_entry "x" "brightred" "red" false false palette8 1 "#red");
    by vm_compute.
Defined.

(** X5. A text colour that is neither [default], nor one of the sixteen
    names, nor six characters long is refused with [ValueError], bold or
    not, before the background colour and the palette are looked at. *)
Theorem invalid_text_descriptor_raises_value_error (data fg bg : string) (b rev : bool)
    (palette : gmap PKey string) :
  fg ≠ "default" →
  fg ∉ ALL_COLORS →
  String.length fg ≠ 6%nat →
  from_pyte (mkChar data fg bg b rev) palette = Raise ValueError.
Proof.
  intros Hdefault Hname Hlen. unfold from_pyte, resolve_text_color. simpl.
  rewrite decide_False by done.
  assert (Hsearch : color_numbers (if b && negb (startswith "bright" fg)
                                   then "bright" +:+ fg else fg) = None).
  { destruct (b && negb (startswith "bright" fg)).
    - destruct (color_numbers ("bright" +:+ fg)) eqn:Hn; [|done].
      apply color_numbers_bright in Hn. destruct Hname. unfold ALL_COLORS.
      apply elem_of_app. by left.
    - destruct (color_numbers fg) eqn:Hn; [|done]. by apply index_of_elem_of in Hn. }
  rewrite Hsearch. by rewrite decide_False.
Qed.

Lemma invalid_text_descriptor_raises_value_error_witness :
  from_pyte (mkChar "x" "pink" "nothing" true false) ∅ = Raise ValueError.
Proof.
  apply (invalid_text_descriptor_raises_value_error "x" "pink" "nothing" true false ∅).
  - done.
  - intros [Hin|(base & Hbase & Heq)]%all_colors_cases.
    + apply base_color_cases in Hin. by destruct_or!.
    + by rewrite bright_cons in Heq.
  - by vm_compute.
Defined.

(* ================================================================== *)
(** * More on the grouping engine and the shape builders *)

Lemma keyed_items {S X Ky} (key : S → X → S * Ky) (st : S) (l : list X) :
  (keyed key st l).*2 = l.
Proof.
  revert st. induction l as [|x l IH]; intros st; simpl; [done|].
  destruct (key st x) as [st' k]. simpl. by rewrite IH.
Qed.

Lemma group_keyed_nonempty {X Ky} `{EqDecision Ky} (l : list (Ky * X)) :
  Forall (λ g, g.2 ≠ []) (group_keyed l).
Proof.
  induction l as [|[k x] l IH]; simpl; [constructor|].
  destruct (group_keyed l) as [|[k' g] rest]; [by constructor|].
  apply Forall_cons in IH as [Hg IH].
  destruct (decide (k = k')); [by constructor|].
  constructor; [done|]. by constructor.
Qed.

Section Keys.
Context {A K : Type} `{EqDecision K} (attributes : A → K).

Lemma keyed_first j y l :
  keyed (consecutive_call attributes) consecutive_init ((j, y) :: l)
  = ((Some j, attributes y), (j, y))
      :: keyed (consecutive_call attributes)
           (mkConsecutive (Some j) (Some j) (Some (attributes y))) l.
Proof.
  cbn [keyed consecutive_call consecutive_init last_index last_key_attributes group_index].
  destruct (decide _) as [_|Hn]; [done|]. destruct Hn. by left.
Qed.

Lemma consecutive_group_cons j y k grp :
  k = (Some j, attributes y) →
  consecutive_group attributes (k, grp)
  ∨ Forall (λ z, attributes z.2 = attributes y) grp →
  consecutive_group attributes ((Some j, attributes y), (j, y) :: grp).
Proof.
  intros -> Hgrp. exists j, y, grp. split_and!; [done..|].
  constructor; [done|].
  destruct Hgrp as [(i & x & rest & _ & [= _ Hx] & Hall)|Hall]; [|done].
  simpl in Hall. by rewrite Hx.
Qed.

Lemma group_keyed_from g i0 a0 l :
  match group_keyed (keyed (consecutive_call attributes)
                       (mkConsecutive g (Some i0) (Some a0)) l) with
  | [] => True
  | (k, grp) :: rest =>
      Forall (consecutive_group attributes) rest
      ∧ (consecutive_group attributes (k, grp)
         ∨ (k = (g, a0) ∧ Forall (λ z, attributes z.2 = a0) grp))
  end.
Proof.
  revert g i0 a0. induction l as [|[j y] l IH]; intros g i0 a0; [done|].
  rewrite keyed_next. destruct (decide (j = i0 + 1 ∧ attributes y = a0)) as [[_ Hy]|_].
  - specialize (IH g j a0). cbn [group_keyed].
    destruct (group_keyed _) as [|[k grp] rest].
    + split; [constructor|]. right. split; [done|]. by repeat constructor.
    + destruct IH as [Hrest Hhead]. destruct (decide ((g, a0) = k)) as [<-|Hne].
      * split; [done|]. right. split; [done|]. constructor; [done|].
        destruct Hhead as [(i & x & r & _ & [= _ Hx] & Hall)|[_ Hall]]; [|done].
        simpl in Hall. by rewrite Hx.
      * split.
        -- constructor; [|done]. destruct Hhead as [?|[? _]]; [done|congruence].
        -- right. split; [done|]. by repeat constructor.
  - specialize (IH (Some j) j (attributes y)). cbn [group_keyed].
    destruct (group_keyed _) as [|[k grp] rest].
    + split; [constructor|]. left. exists j, y, []. by repeat constructor.
    + destruct IH as [Hrest Hhead]. destruct (decide ((Some j, attributes y) = k)) as [<-|Hne].
      * split; [done|]. left. apply (consecutive_group_cons j y (Some j, attributes y)); [done|].
        destruct Hhead as [?|[_ ?]]; [by left|by right].
      * split.
        -- constructor; [|done]. destruct Hhead as [?|[? _]]; [done|congruence].
        -- left. exists j, y, []. by repeat constructor.
Qed.

Lemma groupby_consecutive_groups l :
  Forall (consecutive_group attributes) (groupby_consecutive attributes l).
Proof.
  unfold groupby_consecutive. destruct l as [|[j y] l]; [constructor|].
  rewrite keyed_first. pose proof (group_keyed_from (Some j) j (attributes y) l) as IH.
  cbn [group_keyed]. destruct (group_keyed _) as [|[k grp] rest].
  - constructor; [|constructor]. exists j, y, []. by repeat constructor.
  - destruct IH as [Hrest Hhead]. destruct (decide ((Some j, attributes y) = k)) as [<-|Hne].
    + constructor; [|done]. apply (consecutive_group_cons j y (Some j, attributes y)); [done|].
      destruct Hhead as [?|[_ ?]]; [by left|by right].
    + constructor.
      * exists j, y, []. by repeat constructor.
      * constructor; [|done]. destruct Hhead as [?|[? _]]; [done|congruence].
Qed.

End Keys.

(** X6. Grouping with a [ConsecutiveWithSameAttributes] key cuts any list of
    indexed items, sorted or not, into groups that concatenate to the list;
    each group has the index of its first item and the attributes of that
    item as its key, and all its items have these attributes. *)
Theorem groupby_consecutive_partitions {A K : Type} `{EqDecision K} (attributes : A → K)
    (l : list (Z * A)) :
  mjoin (groupby_consecutive attributes l).*2 = l
  ∧ Forall (consecutive_group attributes) (groupby_consecutive attributes l).
Proof.
  split.
  - unfold groupby_consecutive. by rewrite group_keyed_join, keyed_items.
  - apply groupby_consecutive_groups.
Qed.









(** X8. A line without cells has no text element, and only such a line. *)
Theorem render_characters_empty (screen_line : gmap Z CharacterCell) (cell_width : Z) :
  _render_characters screen_line cell_width = Ok [] ↔ screen_line = ∅.
Proof.
  unfold _render_characters.
  rewrite text_tags_runs by apply sorted_items_increasing.
  split.
  - intros [= Hnil]. apply fmap_nil_inv, runs_nil_inv in Hnil.
    apply map_empty. intros c. destruct (screen_line !! c) as [x|] eqn:Hc; [|done].
    apply sorted_items_elem_of in Hc. rewrite Hnil in Hc. by apply elem_of_nil in Hc.
  - intros ->. done.
Qed.


(* ================================================================== *)
(** * More on the definition store and the composer *)

Lemma find_or_create_definition_inv defs nd key text_group_tag group_id nd' :
  find_or_create_definition defs nd key text_group_tag = Ok (group_id, nd') →
  (nd' = nd
   ∧ ∃ d, (defs !! key = Some d ∨ (defs !! key = None ∧ dict_get key nd = Some d))
          ∧ dict_get "id" (attrib d) = Some group_id)
  ∨ (defs !! key = None ∧ dict_get key nd = None
     ∧ group_id = fresh_id (size defs + length nd)
     ∧ nd' = nd ++ [(key, set_attrib "id" group_id text_group_tag)]).
Proof.
  unfold find_or_create_definition.
  destruct (defs !! key) as [d|] eqn:Hdefs.
  - destruct (dict_get "id" (attrib d)) as [i|] eqn:Hid; simpl; [|done].
    intros [= <- <-]. left. split; [done|]. exists d. split; [by left|done].
  - destruct (dict_get key nd) as [d|] eqn:Hnd.
    + destruct (dict_get "id" (attrib d)) as [i|] eqn:Hid; simpl; [|done].
      intros [= <- <-]. left. split; [done|]. exists d. split; [by right|done].
    + intros [= <- <-]. right. split_and!; [done..| |].
      * unfold fresh_id. do 2 f_equal. lia.
      * by apply dict_set_absent.
Qed.

Section Store.
Context `{Platform}.
Variables (cell_height cell_width : Z) (default_bg_color : string).

Lemma render_event_inv defs cs nd event_record cs' nd' :
  render_event cell_height cell_width default_bg_color defs (cs, nd) event_record
  = Ok (cs', nd') →
  ∃ rect_tags text_tags group_id,
    _render_line_bg_colors (line event_record) (row event_record * cell_height)
      cell_height cell_width default_bg_color = Ok rect_tags
    ∧ _render_characters (line event_record) cell_width = Ok text_tags
    ∧ find_or_create_definition defs nd (tostring (mkElement "g" [] NoText text_tags))
        (mkElement "g" [] NoText text_tags) = Ok (group_id, nd')
    ∧ cs' = cs ++ rect_tags ++ [make_use_tag group_id (row event_record * cell_height)].
Proof.
  unfold render_event.
  destruct (_render_line_bg_colors _ _ _ _ _) as [rect_tags|]; [|done].
  destruct (_render_characters _ _) as [text_tags|]; [|done].
  cbn [mbind result_bind].
  destruct (find_or_create_definition _ _ _ _) as [[group_id nd'']|] eqn:Hf; [|done].
  intros [= <- <-]. by exists rect_tags, text_tags, group_id.
Qed.

Lemma render_events_new_definitions defs (all records : list CharacterCellLineEvent) :
  ∀ cs nd cs' nd',
    (∀ ev, ev ∈ records → ev ∈ all) →
    NoDup nd.*1 →
    (∀ k key d, nd !! k = Some (key, d) →
       defs !! key = None
       ∧ ∃ ev, ev ∈ all ∧ line_definition cell_width ev (fresh_id (size defs + k)) key d) →
    foldlM (render_event cell_height cell_width default_bg_color defs) (cs, nd) records
    = Ok (cs', nd') →
    NoDup nd'.*1
    ∧ (∀ k key d, nd' !! k = Some (key, d) →
         defs !! key = None
         ∧ ∃ ev, ev ∈ all ∧ line_definition cell_width ev (fresh_id (size defs + k)) key d).
Proof.
  induction records as [|ev records IH]; intros cs nd cs' nd' Hall Hnodup Hnd; cbn [foldlM].
  - by intros [= <- <-].
  - destruct (render_event cell_height cell_width default_bg_color defs (cs, nd) ev)
      as [[cs1 nd1]|] eqn:Hev; [|done].
    cbn [mbind result_bind].
    apply render_event_inv in Hev as (rect_tags & text_tags & group_id & _ & Htext & Hf & _).
    apply find_or_create_definition_inv in Hf as [[-> _]|(Hdefs & Hget & -> & ->)].
    + apply IH; [intros ev' Hev'; apply Hall; by right|done|done].
    + apply IH; [intros ev' Hev'; apply Hall; by right| |].
      * rewrite fmap_app. apply NoDup_app. split; [done|]. split.
        -- intros key Hkey [->|[]%elem_of_nil]%elem_of_cons. by apply dict_get_None in Hget.
        -- apply NoDup_singleton.
      * intros k key d Hk. apply lookup_app_Some in Hk as [Hk|[Hlen Hk]]; [by apply Hnd|].
        apply list_lookup_singleton_Some in Hk as [Hk [= <- <-]].
        split; [done|]. exists ev. split; [apply Hall; by left|].
        replace k with (length nd) by lia. by exists text_tags.
Qed.


End Store.

(** X10. The definitions that [make_animated_group] returns are new: none has
    the key of a definition of [defs], no two have the same key, and the one
    at position [k] is the text group of one of the records, serialized as
    its key, with the id [g] numbered [len(defs) + k + 1]. *)
Theorem new_definitions_are_fresh_line_groups `{Platform}
    (records : list CharacterCellLineEvent) (time duration cell_height cell_width : Z)
    (default_bg_color : string) (defs : gmap string Element) (g : Element)
    (new_definitions : list (string * Element)) :
  make_animated_group records time duration cell_height cell_width default_bg_color defs
  = Ok (g, new_definitions) →
  NoDup new_definitions.*1
  ∧ ∀ k key d, new_definitions !! k = Some (key, d) →
      defs !! key = None
      ∧ ∃ event_record,
          event_record ∈ records
          ∧ line_definition cell_width event_record (fresh_id (size defs + k)) key d.
Proof.
  intros (cs & Hfold & _)%make_animated_group_children.
  apply (render_events_new_definitions cell_height cell_width default_bg_color defs records
           records [] [] cs new_definitions); [done|constructor|done|done].
Qed.

Lemma new_definitions_are_fresh_line_groups_witness :
  ∃ g new_definitions,
    @make_animated_group example_platform
      [mkCharacterCellLineEvent 0 gap_line 0 100; mkCharacterCellLineEvent 1 gap_line 0 100]
      0 100 17 8 "black" ∅ = Ok (g, new_definitions)
    ∧ NoDup new_definitions.*1.
Proof.
  eexists _, _. split; [by vm_compute|].
  eapply proj1, (@new_definitions_are_fresh_line_groups example_platform
                   [mkCharacterCellLineEvent 0 gap_line 0 100;
                    mkCharacterCellLineEvent 1 gap_line 0 100] 0 100 17 8 "black" ∅).
  by vm_compute.
Defined.





Section Stream.
Context `{Platform}.
Variables (cell_height cell_width : Z) (default_bg_color : string) (style_tag : Element).









End Stream.




Section Failure.
Context `{Platform}.
Variables (cell_height cell_width : Z) (default_bg_color : string).



End Failure.


(* ================================================================== *)
(** * More on the render pass *)

Lemma group_keyed_last {X Ky} `{EqDecision Ky} (l : list (Ky * X)) b :
  last (group_keyed l) = Some b → ∃ kx, last l = Some kx ∧ kx.1 = b.1.
Proof.
  revert b. induction l as [|[k x] l IH]; intros b; [done|].
  cbn [group_keyed]. destruct (group_keyed l) as [|[k' g] rest] eqn:Hl.
  - apply group_keyed_nil_inv in Hl as ->. intros [= <-]. by exists (k, x).
  - assert (l ≠ []) as Hne by (by intros ->).
    assert (Hlast : ∀ y : Ky * X, last ((k, x) :: l) = last l).
    { intros _. by destruct l. }
    rewrite Hlast by exact (k, x).
    destruct (decide (k = k')) as [->|_].
    + destruct rest as [|r rest].
      * intros [= <-]. destruct (IH (k', g) eq_refl) as (kx & Hkx & Hk). by exists kx.
      * intros Hb. apply IH. by rewrite <- Hb.
    + intros Hb. apply IH. by rewrite <- Hb.
Qed.

Lemma groupby_last {X Ky} `{EqDecision Ky} (key : X → Ky) (l : list X) (e : X) :
  ∃ b, last (groupby key (l ++ [e])) = Some b ∧ b.1 = key e.
Proof.
  unfold groupby.
  destruct (last (group_keyed ((λ x, (key x, x)) <$> l ++ [e]))) as [b|] eqn:Hb.
  - exists b. split; [done|].
    apply group_keyed_last in Hb as (kx & Hkx & <-).
    rewrite fmap_last, last_snoc in Hkx. by injection Hkx as <-.
  - apply last_None, group_keyed_nil_inv, fmap_nil_inv in Hb. by destruct l.
Qed.

Lemma leading_events_all records :
  length (leading_events records) = length records →
  records = LineEvent <$> leading_events records.
Proof.
  induction records as [|[c|e] records IH]; simpl; [done|done|].
  intros [= Hlen]. f_equal. by apply IH.
Qed.

Lemma leading_events_fmap events : leading_events (LineEvent <$> events) = events.
Proof. induction events as [|e events IH]; simpl; [done|]. f_equal. exact IH. Qed.

(** X15. The duration that the style sheet of the document announces is the
    end of the last line event: with a stream that ends with the record [e],
    the generated style gets the text that sets [--animation-duration] to
    [time + duration] of [e], in milliseconds. *)
Theorem animation_duration_is_end_of_last_event `{Platform} (header : CharacterCellConfig)
    (events : list CharacterCellLineEvent) (e : CharacterCellLineEvent) (font : string)
    (font_size cell_width cell_height : Z) (doc : Element) :
  _render_animation (Config header :: (LineEvent <$> (events ++ [e]))) font font_size
    cell_width cell_height = Ok doc →
  ∃ (style_path : path) (style : Element),
    get style_path doc = Some style
    ∧ tag style = qname SVG_NS "style"
    ∧ elem_text style
      = CDATA (":root {--foreground-color: " +:+ cfg_text_color header
               +:+ "; --background-color: " +:+ cfg_background_color header
               +:+ "; --animation-duration: " +:+ py_str (time e + duration e) +:+ "ms}").
Proof.
  intros (header' & events' & root & sp & screen & st & groups & stp & style & Hrecords & _
          & _ & Hst & _ & Hstyle & ->)%render_animation_inv.
  injection Hrecords as <- Hevents. apply (f_equal leading_events) in Hevents.
  rewrite !leading_events_fmap in Hevents. subst events'.
  destruct (render_buckets_spec cell_height cell_width (cfg_background_color header)
              (build_style_tag font font_size (cfg_background_color header))
              (events ++ [e])) as (st' & _ & _ & Hst' & _ & _ & _ & _ & _ & Hdur).
  rewrite Hst in Hst'. injection Hst' as <-.
  destruct (groupby_last by_time events e) as (b & Hb & Hkey).
  rewrite Hb in Hdur. rewrite Hkey in Hdur. simpl in Hdur.
  pose proof (head_elem_of _ _ Hstyle) as Hin.
  apply findall_descendants_child_get in Hin as (_ & Hget & Htag & _).
  exists stp, (set_text
                 (CDATA (_serialize_css_dict
                    [(":root", [("--foreground-color", cfg_text_color header);
                                ("--background-color", cfg_background_color header);
                                ("--animation-duration",
                                 py_format_opt (animation_duration st) +:+ "ms")])]))
                 style).
  split; [by apply get_update|]. split; [done|].
  simpl. by rewrite Hdur, css_variables_string.
Qed.

Lemma animation_duration_is_end_of_last_event_witness :
  ∃ doc style_path style,
    @_render_animation example_platform example_records "Mono" 14 8 17 = Ok doc
    ∧ get style_path doc = Some style
    ∧ elem_text style
      = CDATA ":root {--foreground-color: white; --background-color: black; --animation-duration: 150ms}".
Proof.
  destruct (@_render_animation example_platform example_records "Mono" 14 8 17)
    as [doc|err] eqn:Hdoc; [|by vm_compute in Hdoc].
  destruct (@animation_duration_is_end_of_last_event example_platform
              (mkCharacterCellConfig 100 30 "white" "black")
              [mkCharacterCellLineEvent 0 gap_line 0 100;
               mkCharacterCellLineEvent 1 gap_line 0 100]
              (mkCharacterCellLineEvent 1 wide_cell_line 100 50) "Mono" 14 8 17 doc Hdoc)
    as (style_path & style & Hget & _ & Htext).
  exists doc, style_path, style. split; [exact eq_refl|]. split; [exact Hget|].
  rewrite Htext. by vm_compute.
Defined.



(* ================================================================== *)
(** * More on the template scaler *)

Lemma traverse_int_raises l exc :
  traverse (int_or ValueError) l = Raise exc → exc = ValueError.
Proof.
  induction l as [|s l IH]; [done|]. rewrite traverse_cons.
  destruct (int_or ValueError s) as [z|e] eqn:Hs; cbn [mbind result_bind].
  - destruct (traverse _ l); cbn [mbind result_bind]; [done|].
    intros [= <-]. by apply IH.
  - intros [= <-]. unfold int_or in Hs. destruct (py_int s); congruence.
Qed.

Lemma scale_attribute_raises element attribute delta exc :
  scale_attribute element attribute delta = Raise exc → exc = TemplateError.
Proof.
  intros Hs. pose proof (scale_attribute_spec element attribute delta) as Hspec.
  rewrite Hs in Hspec. by destruct Hspec.
Qed.

Lemma scale_sizes_raises element dw dh exc :
  foldlM (λ element '(attribute, delta), scale_attribute element attribute delta)
    element [("width", dw); ("height", dh)] = Raise exc →
  exc = TemplateError.
Proof.
  cbn [foldlM]. destruct (scale_attribute element "width" dw) as [e1|] eqn:H1;
    cbn [mbind result_bind]; [|intros [= <-]; by apply scale_attribute_raises in H1].
  destruct (scale_attribute e1 "height" dh) as [e2|] eqn:H2;
    cbn [mbind result_bind]; [done|intros [= <-]; by apply scale_attribute_raises in H2].
Qed.

Lemma scale_raises cell_width cell_height element template_columns template_rows
    columns rows exc :
  scale cell_width cell_height element template_columns template_rows columns rows
  = Raise exc →
  exc = TemplateError ∨ exc = ValueError.
Proof.
  unfold scale. destruct (dict_get "viewBox" (attrib element)) as [v|];
    cbn [mbind result_bind]; [|intros [= <-]; by left].
  destruct (traverse _ _) as [numbers|exc'] eqn:Hn; cbn [mbind result_bind];
    [|intros [= <-]; right; by apply traverse_int_raises in Hn].
  destruct numbers as [|x [|y [|w [|h [|? ?]]]]]; try (intros [= <-]; by right).
  intros Hs. apply scale_sizes_raises in Hs. by left.
Qed.



(** The steps of [resize_template] after the template is parsed. *)
Lemma resize_template_steps `{Platform} template columns rows cell_width cell_height root :
  parse_template template = Some root →
  (∃ exc, template_geometry root = Raise exc
          ∧ resize_template template columns rows cell_width cell_height = Raise exc)
  ∨ ∃ settings_path settings tc tr,
      template_geometry root = Ok (settings_path, tc, tr)
      ∧ find_settings root = Some (settings_path, settings)
      ∧ ((¬ (0 < tc ∧ 0 < tr)
          ∧ resize_template template columns rows cell_width cell_height
            = Raise TemplateError)
         ∨ (0 < tc ∧ 0 < tr
            ∧ ((∃ exc, scale cell_width cell_height root tc tr columns rows = Raise exc
                       ∧ resize_template template columns rows cell_width cell_height
                         = Raise exc)
               ∨ ∃ root1,
                   scale cell_width cell_height root tc tr columns rows = Ok root1
                   ∧ ((find_screen root = None
                       ∧ resize_template template columns rows cell_width cell_height
                         = Raise TemplateError)
                      ∨ ∃ screen_path screen,
                          find_screen root = Some (screen_path, screen)
                          ∧ ((∃ exc, scale cell_width cell_height screen tc tr columns rows
                                     = Raise exc
                                     ∧ resize_template template columns rows cell_width
                                         cell_height = Raise exc)
                             ∨ ∃ screen1 doc,
                                 scale cell_width cell_height screen tc tr columns rows
                                 = Ok screen1
                                 ∧ remove settings_path
                                     (update screen_path (λ _, screen1) root1) = Ok doc
                                 ∧ resize_template template columns rows cell_width
                                     cell_height = Ok doc))))).
Proof.
  intros Hparse. unfold resize_template. rewrite Hparse. cbn [mbind result_bind].
  pose proof (template_geometry_spec root) as Hspec.
  destruct (template_geometry root) as [[[sp tc] tr]|exc]; cbn [mbind result_bind];
    [|left; by exists exc].
  right. destruct Hspec as [[settings Hsettings] _]. exists sp, settings, tc, tr.
  split; [done|]. split; [done|].
  destruct (decide (tr ≤ 0 ∨ tc ≤ 0)) as [Hle|Hpos]; [left; split; [lia|done]|].
  right. split; [lia|]. split; [lia|].
  destruct (scale cell_width cell_height root tc tr columns rows) as [root1|exc] eqn:Hroot;
    cbn [mbind result_bind]; [|left; by exists exc].
  right. exists root1. split; [done|].
  destruct (scale_fields _ _ _ _ _ _ _ _ Hroot) as (_ & Hcs & _).
  rewrite (find_screen_children root1 root Hcs).
  destruct (find_screen root) as [[scp screen]|] eqn:Hscreen; cbn [mbind result_bind];
    [|by left].
  right. exists scp, screen. split; [done|].
  destruct (find_screen_get _ _ _ Hscreen) as [Hscp Hget].
  rewrite (get_children_eq scp root root1 Hscp (eq_sym Hcs)) in Hget.
  unfold updateM. rewrite Hget.
  destruct (scale cell_width cell_height screen tc tr columns rows) as [screen1|exc]
    eqn:Hsc; cbn [mbind result_bind]; [|left; by exists exc].
  right. destruct (find_settings_get _ _ _ Hsettings) as (Hsp & _).
  destruct (remove_is_Ok sp (update scp (λ _, screen1) root1) Hsp) as [doc Hdoc].
  exists screen1, doc. by rewrite Hdoc.
Qed.

Lemma resize_template_exceptions `{Platform} template columns rows cell_width cell_height
    exc :
  resize_template template columns rows cell_width cell_height = Raise exc →
  exc = TemplateError ∨ exc = ValueError.
Proof.
  destruct (parse_template template) as [root|] eqn:Hparse.
  - destruct (resize_template_steps template columns rows cell_width cell_height root Hparse)
      as [(e & Hgeo & ->)
         |(sp & settings & tc & tr & Hgeo & _ &
           [[_ ->]|(_ & _ & [(e & He & ->)|(root1 & _ &
              [[_ ->]|(scp & screen & _ & [(e & He & ->)|(screen1 & doc & _ & _ & ->)])])])])].
    + intros [= <-]. left. pose proof (template_geometry_spec root) as Hspec.
      rewrite Hgeo in Hspec. by destruct Hspec.
    + intros [= <-]. by left.
    + intros [= <-]. by apply scale_raises in He.
    + intros [= <-]. by left.
    + intros [= <-]. by apply scale_raises in He.
    + done.
  - unfold resize_template. rewrite Hparse. intros [= <-]. by left.
Qed.

(** X17. Loading a template raises nothing but [TemplateError] and
    [ValueError]: in particular the removal of the sizing metadata never
    fails. *)
Theorem resize_template_raises_only `{Platform} (template : string)
    (columns rows cell_width cell_height : Z) (exc : Exception) :
  resize_template template columns rows cell_width cell_height = Raise exc →
  exc = TemplateError ∨ exc = ValueError.
Proof. apply resize_template_exceptions. Qed.

Lemma resize_template_raises_only_witness :
  @resize_template float_viewbox_platform "data/templates/carbon.svg" 100 30 8 17
  = Raise ValueError
  ∧ (ValueError = TemplateError ∨ ValueError = ValueError).
Proof.
  split; [by vm_compute|].
  apply (@resize_template_raises_only float_viewbox_platform "data/templates/carbon.svg"
           100 30 8 17 ValueError).
  by vm_compute.
Defined.


Lemma count_get_update P f q :
  ∀ p e s sq,
    get q e = Some sq →
    tag (f sq) = tag sq → children (f sq) = children sq →
    count_where P (f sq) = count_where P sq →
    get p e = Some s →
    ∃ s', get p (update q f e) = Some s'
          ∧ count_where P s' = count_where P s ∧ tag s' = tag s.
Proof.
  induction q as [|j q IH]; intros p e s sq Hq Ht Hcs Hcount Hp.
  - injection Hq as ->. simpl. destruct p as [|i p].
    + injection Hp as <-. by exists (f sq).
    + exists s. rewrite get_cons, Hcs, <- get_cons. done.
  - rewrite get_cons in Hq. destruct (children e !! j) as [c|] eqn:Hc; [|done].
    simpl in Hq. destruct p as [|i p].
    + injection Hp as <-. exists (update (j :: q) f e). split; [done|]. split.
      * assert (Hget : get (j :: q) e = Some sq) by (by rewrite get_cons, Hc).
        pose proof (count_where_update P (j :: q) f e sq Hget). lia.
      * by destruct e.
    + rewrite update_cons, get_cons. cbn [children set_children].
      rewrite get_cons in Hp. destruct (decide (i = j)) as [->|Hne].
      * rewrite list_lookup_alter_eq, Hc in *. simpl in *. by eapply IH.
      * rewrite list_lookup_alter_ne by done. by exists s.
Qed.

Lemma count_where_scale P cell_width cell_height element template_columns template_rows
    columns rows element' :
  ignores_sizing P →
  scale cell_width cell_height element template_columns template_rows columns rows
  = Ok element' →
  count_where P element' = count_where P element.
Proof.
  intros HP (Ht & Hcs & _ & Ha)%scale_fields.
  apply count_where_fields; [done|done|]. by apply HP.
Qed.

(** X19. Loading a template keeps every element but those of the
    [template_settings] subtree, with its tag and its attributes other than
    [viewBox], [width] and [height]: for a predicate on tags and on the
    other attributes, the document has as many elements that satisfy it as
    the template has outside this subtree. *)
Theorem resize_template_keeps_other_elements `{Platform}
    (P : string → list (string * string) → bool) (template : string)
    (columns rows cell_width cell_height : Z) (doc : Element) :
  ignores_sizing P →
  resize_template template columns rows cell_width cell_height = Ok doc →
  ∃ (root : Element) (settings_path : path) (settings : Element),
    parse_template template = Some root
    ∧ find_settings root = Some (settings_path, settings)
    ∧ (count_where P doc + count_where P settings = count_where P root)%nat.
Proof.
  intros HP (root & sp & tc & tr & root1 & scp & screen & screen1 & Hparse & Hgeo & _ & _
             & Hroot & Hscreen & Hget & Hsc & Hrem)%resize_template_inv.
  pose proof (template_geometry_spec root) as Hspec. rewrite Hgeo in Hspec.
  destruct Hspec as [[settings Hsettings] _].
  exists root, sp, settings. split; [done|]. split; [done|].
  destruct (find_settings_get _ _ _ Hsettings) as (Hsp & Hgetsp & _).
  destruct (scale_fields _ _ _ _ _ _ _ _ Hroot) as (_ & Hcs1 & _).
  destruct (scale_fields _ _ _ _ _ _ _ _ Hsc) as (Hts & Hcss & _).
  rewrite (get_children_eq sp root root1 Hsp (eq_sym Hcs1)) in Hgetsp.
  pose proof (count_where_scale P _ _ _ _ _ _ _ _ HP Hroot) as Hcount1.
  pose proof (count_where_scale P _ _ _ _ _ _ _ _ HP Hsc) as Hcounts.
  destruct (count_get_update P (λ _, screen1) scp sp root1 settings screen)
    as (s' & Hs' & Hcount' & _); [done..|].
  pose proof (count_where_remove P _ _ _ _ Hs' Hrem) as Hdoc.
  pose proof (count_where_update P scp (λ _, screen1) root1 screen Hget) as Hpre.
  cbv beta in Hpre. lia.
Qed.

Lemma resize_template_keeps_other_elements_witness :
  ∃ doc,
    @resize_template example_platform "data/templates/carbon.svg" 100 30 8 17 = Ok doc
    ∧ count_where (tagged (qname SVG_NS "svg")) doc = 2%nat.
Proof.
  destruct (@resize_template example_platform "data/templates/carbon.svg" 100 30 8 17)
    as [doc|exc] eqn:Hdoc; [|by vm_compute in Hdoc].
  exists doc. split; [done|].
  destruct (@resize_template_keeps_other_elements example_platform
              (tagged (qname SVG_NS "svg")) "data/templates/carbon.svg" 100 30 8 17 doc)
    as (root & sp & settings & Hparse & Hsettings & Hcount); [by intros t a a' _|done|].
  injection Hparse as <-. vm_compute in Hsettings. injection Hsettings as <- <-.
  vm_compute (count_where _ example_template) in Hcount.
  vm_compute (count_where _ (mkElement _ _ _ _)) in Hcount. lia.
Defined.

Lemma tag_last_animation_Ok groups buckets :
  Forall2 group_of_bucket groups buckets → is_Ok (tag_last_animation groups).
Proof.
  intros Hgroups. destruct (decide (groups = [])) as [->|Hne].
  - exists []. apply tag_last_animation_nil.
  - destruct (tag_last_animation_spec groups buckets Hgroups Hne)
      as (init & cs & b & _ & _ & _ & ->). by eexists.
Qed.

Lemma add_css_variables_raises `{Platform} root fg bg d exc :
  add_css_variables root fg bg d = Raise exc → exc = TemplateError.
Proof.
  unfold add_css_variables. destruct (find_generated_style root) as [[sp style]|]; [done|].
  by intros [= <-].
Qed.

(** The render of a header followed by line events, on a template that is
    loaded: the groups are built and tagged, and only the search for the
    generated style can fail. *)
Lemma render_events_steps `{Platform} header events font font_size cell_width cell_height
    root screen_path screen :
  resize_template "data/templates/carbon.svg" (cfg_width header) (cfg_height header)
    cell_width cell_height = Ok root →
  find_screen root = Some (screen_path, screen) →
  ∃ st groups,
    render_buckets cell_height cell_width (cfg_background_color header)
      (build_style_tag font font_size (cfg_background_color header)) events = Ok st
    ∧ tag_last_animation (animated_groups st) = Ok groups
    ∧ _render_animation (Config header :: (LineEvent <$> events)) font font_size cell_width
        cell_height
      = add_css_variables
          (update screen_path
             (set_children ([mkElement "defs" [] NoText (def_children st); BG_RECT_TAG]
                              ++ groups)) root)
          (cfg_text_color header) (cfg_background_color header) (animation_duration st).
Proof.
  intros Hroot Hscreen.
  destruct (render_buckets_spec cell_height cell_width (cfg_background_color header)
              (build_style_tag font font_size (cfg_background_color header)) events)
    as (st & _ & _ & Hst & _ & _ & Hgroups & _).
  destruct (tag_last_animation_Ok _ _ Hgroups) as [groups Htag].
  exists st, groups. split; [done|]. split; [done|].
  unfold _render_animation. cbn [mbind result_bind]. rewrite Hroot.
  cbn [mbind result_bind]. rewrite Hscreen. cbn [mbind result_bind].
  rewrite leading_events_fmap, Hst. cbn [mbind result_bind].
  rewrite decide_False by (rewrite length_fmap; auto).
  rewrite Htag. done.
Qed.

(** X20. A render raises nothing but [StopIteration] (no record),
    [AttributeError] (a header where a line event is read, or the reverse),
    [TemplateError] and [ValueError]: the assertion on the toggle directive
    of the last group never fails, and no lookup of a definition does. *)
Theorem render_animation_raises_only `{Platform} (records : list CharacterCellRecord)
    (font : string) (font_size cell_width cell_height : Z) (exc : Exception) :
  _render_animation records font font_size cell_width cell_height = Raise exc →
  exc = StopIteration ∨ exc = AttributeError ∨ exc = TemplateError ∨ exc = ValueError.
Proof.
  destruct records as [|[header|e] rest].
  - intros [= <-]. by left.
  - destruct (resize_template "data/templates/carbon.svg" (cfg_width header)
                (cfg_height header) cell_width cell_height) as [root|exc'] eqn:Hroot.
    2: { unfold _render_animation. cbn [mbind result_bind]. rewrite Hroot.
         intros [= <-]. apply resize_template_exceptions in Hroot as [-> | ->]; auto. }
    destruct (find_screen root) as [[sp screen]|] eqn:Hscreen.
    2: { unfold _render_animation. cbn [mbind result_bind]. rewrite Hroot.
         cbn [mbind result_bind]. rewrite Hscreen. intros [= <-]. auto. }
    destruct (decide (length (leading_events rest) = length rest)) as [Hlen|Hlen].
    + apply leading_events_all in Hlen. rewrite Hlen.
      destruct (render_events_steps header (leading_events rest) font font_size cell_width
                  cell_height root sp screen Hroot Hscreen) as (st & groups & _ & _ & ->).
      intros ->%add_css_variables_raises. auto.
    + unfold _render_animation. cbn [mbind result_bind]. rewrite Hroot.
      cbn [mbind result_bind]. rewrite Hscreen. cbn [mbind result_bind].
      destruct (render_buckets_spec cell_height cell_width (cfg_background_color header)
                  (build_style_tag font font_size (cfg_background_color header))
                  (leading_events rest)) as (st & _ & _ & -> & _).
      cbn [mbind result_bind]. rewrite decide_True by done. intros [= <-]. auto.
  - intros [= <-]. auto.
Qed.

Lemma render_animation_raises_only_witness :
  @_render_animation example_platform [] "Mono" 14 8 17 = Raise StopIteration
  ∧ (StopIteration = StopIteration ∨ StopIteration = AttributeError
     ∨ StopIteration = TemplateError ∨ StopIteration = ValueError).
Proof.
  split; [reflexivity|].
  apply (@render_animation_raises_only example_platform [] "Mono" 14 8 17 StopIteration).
  reflexivity.
Defined.



Lemma groupby_cons {X Ky} `{EqDecision Ky} (key : X → Ky) (x : X) (l : list X) :
  groupby key (x :: l)
  = match groupby key l with
    | (k', g) :: rest =>
        if decide (key x = k') then (key x, x :: g) :: rest
        else (key x, [x]) :: (k', g) :: rest
    | [] => [(key x, [x])]
    end.
Proof. reflexivity. Qed.

Lemma groupby_keys {X Ky} `{EqDecision Ky} (key : X → Ky) (l : list X) :
  Forall (λ b, b.2 ≠ [] ∧ Forall (λ x, key x = b.1) b.2) (groupby key l).
Proof.
  induction l as [|x l IH]; [constructor|]. rewrite groupby_cons.
  destruct (groupby key l) as [|[k' g] rest].
  - constructor; [|constructor]. split; [done|]. by repeat constructor.
  - apply Forall_cons in IH as [[Hne Hg] Hrest]. simpl in Hg, Hne.
    destruct (decide (key x = k')) as [<-|_].
    + constructor; [|done]. simpl. split; [done|]. by constructor.
    + constructor; [simpl; split; [done|by repeat constructor]|].
      constructor; [|done]. by split.
Qed.

Lemma groupby_adjacent {X Ky} `{EqDecision Ky} (key : X → Ky) (l : list X) :
  ∀ i b b', groupby key l !! i = Some b → groupby key l !! S i = Some b' → b.1 ≠ b'.1.
Proof.
  induction l as [|x l IH]; [done|]. rewrite groupby_cons.
  destruct (groupby key l) as [|[k' g] rest]; [by intros [|i]|].
  destruct (decide (key x = k')) as [<-|Hne].
  - intros [|i] b b'.
    + intros [= <-] Hb'. apply (IH 0%nat (key x, g) b'); done.
    + intros Hb Hb'. by apply (IH (S i) b b').
  - intros [|i] b b'.
    + by intros [= <-] [= <-].
    + intros Hb Hb'. by apply (IH i b b').
Qed.

(** X22. The buckets of the render are the maximal blocks of adjacent line
    events with the same [(time, duration)]: they concatenate to the events
    in their order, none is empty, all events of a bucket have its key, and
    two buckets that follow each other have different keys.  Events are not
    sorted: events with the same key that are apart are in different
    buckets. *)
Theorem buckets_are_adjacent_blocks (events : list CharacterCellLineEvent) :
  mjoin (groupby by_time events).*2 = events
  ∧ Forall (λ b, b.2 ≠ [] ∧ Forall (λ event_record, by_time event_record = b.1) b.2)
           (groupby by_time events)
  ∧ ∀ i b b', groupby by_time events !! i = Some b →
               groupby by_time events !! S i = Some b' → b.1 ≠ b'.1.
Proof.
  split; [apply groupby_join|]. split; [apply groupby_keys|apply groupby_adjacent].
Qed.



(* ================================================================== *)
(** * The style sheet variables *)


















